(** * WhatsApp referral extractor: a shallow embedding and its properties

    The development follows [src/backend/extract_referrals.py] and
    [src/backend/main.py].

    Text.  A Python [str] is a sequence of code points.  Here a character
    is an [ascii], read as a code point below 256, and the classes [\d],
    [\s], [\w], [.] and [str.lower] are the ones Python's [re] and [str]
    use on that range.

    Regular expressions.  Python's [re] is a backtracking matcher: the
    alternatives at a position are tried in a fixed order and the first
    complete match is returned.  [run] returns the list of all ways a
    pattern can match from a position, in that order of preference; the
    match [re] reports is the head of the list. *)

From Stdlib Require Import Ascii String DecimalString List Bool Arith Lia.
Import ListNotations.

(** ** Characters and text *)

Definition text := list ascii.

Definition txt (s : string) : text := list_ascii_of_string s.

Definition code (c : ascii) : nat := nat_of_ascii c.

Definition in_range (lo hi : nat) (c : ascii) : bool :=
  (lo <=? code c) && (code c <=? hi).

Definition is_code (n : nat) (c : ascii) : bool := code c =? n.

(** [\d] *)
Definition is_digit (c : ascii) : bool := in_range 48 57 c.

(** [\s] *)
Definition is_space (c : ascii) : bool :=
  in_range 9 13 c || in_range 28 32 c || is_code 133 c || is_code 160 c.

(** [\w], which decides where [\b] holds *)
Definition is_word (c : ascii) : bool :=
  in_range 48 57 c || in_range 65 90 c || is_code 95 c || in_range 97 122 c
  || is_code 170 c || in_range 178 179 c || is_code 181 c
  || in_range 185 186 c || in_range 188 190 c || in_range 192 214 c
  || in_range 216 246 c || in_range 248 255 c.

(** [[A-Z]] and [[a-z]] *)
Definition is_upper (c : ascii) : bool := in_range 65 90 c.
Definition is_lower (c : ascii) : bool := in_range 97 122 c.

(** [.] without the DOTALL flag: anything but a line feed *)
Definition is_dot (c : ascii) : bool := negb (is_code 10 c).

(** [[APM]] *)
Definition is_apm (c : ascii) : bool :=
  is_code 65 c || is_code 80 c || is_code 77 c.

(** [[-.\s]] *)
Definition is_sep (c : ascii) : bool :=
  is_code 45 c || is_code 46 c || is_space c.

(** [str.lower], one character at a time *)
Definition lower_char (c : ascii) : ascii :=
  if in_range 65 90 c || in_range 192 214 c || in_range 216 222 c
  then ascii_of_nat (code c + 32) else c.

Definition lower (s : text) : text := map lower_char s.

(** ** The matcher *)

Inductive regex : Type :=
| Eps
| Chr (c : ascii)
| Cls (p : ascii -> bool)
| WordB
| Cat (r1 r2 : regex)
| Rep (lo : nat) (hi : option nat) (greedy : bool) (r : regex)
| Grp (i : nat) (r : regex).

(** A position in the subject: the characters already passed (nearest
    first), the characters ahead, and the groups captured so far. *)
Record mstate : Type := MState {
  seen : text;
  rest : text;
  caps : list (nat * text)
}.

Definition consumed (st st' : mstate) : text :=
  rev (firstn (length (seen st') - length (seen st)) (seen st')).

Definition set_cap (i : nat) (st st' : mstate) : mstate :=
  MState (seen st') (rest st') ((i, consumed st st') :: caps st').

Definition step_class (p : ascii -> bool) (st : mstate) : list mstate :=
  match rest st with
  | x :: t => if p x then [MState (x :: seen st) t (caps st)] else []
  | [] => []
  end.

Definition word_before (st : mstate) : bool :=
  match seen st with x :: _ => is_word x | [] => false end.

Definition word_after (st : mstate) : bool :=
  match rest st with x :: _ => is_word x | [] => false end.

Section Repeat.

Variable step : mstate -> list mstate.

(** exactly [n] rounds *)
Fixpoint times (n : nat) (st : mstate) : list mstate :=
  match n with
  | O => [st]
  | S n' => flat_map (times n') (step st)
  end.

(** at most [n] further rounds: a greedy repetition prefers one more
    round, a lazy one prefers to stop *)
Fixpoint upto (greedy : bool) (n : nat) (st : mstate) : list mstate :=
  match n with
  | O => [st]
  | S n' =>
      let deeper := flat_map (upto greedy n') (step st) in
      if greedy then deeper ++ [st] else st :: deeper
  end.

End Repeat.

(** An unbounded repetition is cut after as many rounds as there are
    characters ahead; the repeated patterns of this program all consume
    a character per round, so the cut is never reached. *)
Definition rounds (lo : nat) (hi : option nat) (st : mstate) : nat :=
  match hi with
  | Some h => h - lo
  | None => length (rest st)
  end.

Fixpoint run (r : regex) (st : mstate) : list mstate :=
  match r with
  | Eps => [st]
  | Chr c => step_class (Ascii.eqb c) st
  | Cls p => step_class p st
  | WordB => if xorb (word_before st) (word_after st) then [st] else []
  | Cat r1 r2 => flat_map (run r2) (run r1 st)
  | Rep lo hi greedy r' =>
      flat_map (fun s => upto (run r') greedy (rounds lo hi s) s)
               (times (run r') lo st)
  | Grp i r' => map (set_cap i st) (run r' st)
  end.

(** A match: where it starts and where it ends. *)
Record rmatch : Type := RMatch {
  m_from : mstate;
  m_to : mstate
}.

Definition group0 (m : rmatch) : text := consumed (m_from m) (m_to m).

Fixpoint lookup_cap (i : nat) (l : list (nat * text)) : option text :=
  match l with
  | [] => None
  | (j, s) :: l' => if j =? i then Some s else lookup_cap i l'
  end.

Definition group (i : nat) (m : rmatch) : text :=
  match lookup_cap i (caps (m_to m)) with
  | Some s => s
  | None => []
  end.

(** [re.search]: the first start position, left to right, at which the
    pattern matches, with the preferred match there. *)
Fixpoint search_from (r : regex) (before ahead : text) : option rmatch :=
  match run r (MState before ahead []) with
  | st' :: _ => Some (RMatch (MState before ahead []) st')
  | [] =>
      match ahead with
      | [] => None
      | c :: ahead' => search_from r (c :: before) ahead'
      end
  end.

Definition re_search (r : regex) (s : text) : option rmatch :=
  search_from r [] s.

(** [re.findall] for a pattern without groups: the successive matches,
    each search resuming where the previous match ended.  After an empty
    match the scan moves one character on. *)
Fixpoint findall_from (fuel : nat) (r : regex) (before ahead : text)
  : list text :=
  match fuel with
  | O => []
  | S fuel' =>
      match search_from r before ahead with
      | None => []
      | Some m =>
          group0 m ::
          match group0 m, rest (m_to m) with
          | [], [] => []
          | [], c :: t => findall_from fuel' r (c :: seen (m_to m)) t
          | _ :: _, _ => findall_from fuel' r (seen (m_to m)) (rest (m_to m))
          end
      end
  end.

Definition re_findall (r : regex) (s : text) : list text :=
  findall_from (S (length s)) r [] s.

(** Pattern shorthands *)
Fixpoint Lit (s : text) : regex :=
  match s with
  | [] => Eps
  | [c] => Chr c
  | c :: s' => Cat (Chr c) (Lit s')
  end.

Fixpoint Seq (rs : list regex) : regex :=
  match rs with
  | [] => Eps
  | [r] => r
  | r :: rs' => Cat r (Seq rs')
  end.

Definition Exactly (n : nat) (r : regex) : regex := Rep n (Some n) true r.
Definition Between (lo hi : nat) (r : regex) : regex := Rep lo (Some hi) true r.
Definition Opt (r : regex) : regex := Rep 0 (Some 1) true r.
Definition Star (r : regex) : regex := Rep 0 None true r.
Definition Plus (r : regex) : regex := Rep 1 None true r.
Definition LazyStar (r : regex) : regex := Rep 0 None false r.

(** ** The three patterns of [extract_service_referrals] *)

(** The line pattern: a bracketed stamp "\[\d{2}/\d{2}/\d{2}, \d{1,2}:\d{2} [APM]{2}\]",
    a space, a lazy group of dots, a colon and a space, and a greedy group
    of dots to the end of the line. *)
Definition line_re : regex :=
  Seq [ Lit (txt "["); Exactly 2 (Cls is_digit); Lit (txt "/");
        Exactly 2 (Cls is_digit); Lit (txt "/"); Exactly 2 (Cls is_digit);
        Lit (txt ", "); Between 1 2 (Cls is_digit); Lit (txt ":");
        Exactly 2 (Cls is_digit); Lit (txt " "); Exactly 2 (Cls is_apm);
        Lit (txt "] "); Grp 1 (LazyStar (Cls is_dot)); Lit (txt ": ");
        Grp 2 (Star (Cls is_dot)) ].

(** The phone pattern: "\b\d{3}[-.\s]?\d{3}[-.\s]?\d{4}\b". *)
Definition phone_re : regex :=
  Seq [ WordB; Exactly 3 (Cls is_digit); Opt (Cls is_sep);
        Exactly 3 (Cls is_digit); Opt (Cls is_sep);
        Exactly 4 (Cls is_digit); WordB ].

(** The business pattern: one group holding "[A-Z][a-z]+" followed by any
    number of "\s[A-Z][a-z]+". *)
Definition business_re : regex :=
  Grp 1 (Seq [ Cls is_upper; Plus (Cls is_lower);
               Star (Seq [ Cls is_space; Cls is_upper;
                           Plus (Cls is_lower) ]) ]).

(** ** Strings: the [str] methods the program calls *)

Fixpoint text_eqb (a b : text) : bool :=
  match a, b with
  | [], [] => true
  | x :: a', y :: b' => Ascii.eqb x y && text_eqb a' b'
  | _, _ => false
  end.

Fixpoint starts_with (p s : text) : bool :=
  match p, s with
  | [], _ => true
  | x :: p', y :: s' => Ascii.eqb x y && starts_with p' s'
  | _ :: _, [] => false
  end.

(** [p in s] *)
Fixpoint contains (p s : text) : bool :=
  starts_with p s ||
  match s with
  | [] => false
  | _ :: s' => contains p s'
  end.

(** [s.endswith(suffix)] *)
Definition endswith (s suffix : text) : bool :=
  (length suffix <=? length s) &&
  text_eqb (skipn (length s - length suffix) s) suffix.

(** [s.replace(old, new)] for a non-empty [old]: every occurrence, left to
    right, without overlap.  [skip] counts the characters of an occurrence
    still to be dropped. *)
Fixpoint replace_from (old new : text) (skip : nat) (s : text) : text :=
  match s with
  | [] => []
  | c :: s' =>
      match skip with
      | S k => replace_from old new k s'
      | O =>
          if starts_with old s
          then new ++ replace_from old new (length old - 1) s'
          else c :: replace_from old new 0 s'
      end
  end.

Definition replace (old new s : text) : text := replace_from old new 0 s.

(** [str(n)] *)
Definition str_of_nat (n : nat) : text :=
  txt (NilEmpty.string_of_uint (Nat.to_uint n)).

(** ** Files *)

Definition LF : ascii := "010"%char.
Definition CR : ascii := "013"%char.

(** What a file holds: the UTF-8 encoding of a text, or bytes that are not
    valid UTF-8. *)
Inductive file_data : Type :=
| Utf8 (t : text)
| NotUtf8.

Inductive folder : Type := UPLOAD_FOLDER | OUTPUT_FOLDER.

Definition directory := list (text * file_data).

(** The two folders hold regular files only; [stdout] collects what
    [print] writes, one entry per call. *)
Record world : Type := World {
  uploads : directory;
  outputs : directory;
  stdout : list text
}.

Inductive exn : Type :=
| FileNotFoundError
| UnicodeDecodeError
| JSONDecodeError
| TypeError
| KeyError
| AttributeError.

Inductive result (A : Type) : Type :=
| Ok (a : A)
| Raise (e : exn).

Arguments Ok {A} a.
Arguments Raise {A} e.

(** Effectful code: a state transformer over the world that returns a
    value or raises. *)
Definition io (A : Type) : Type := world -> world * result A.

Definition ret {A : Type} (a : A) : io A := fun w => (w, Ok a).

Definition raise {A : Type} (e : exn) : io A := fun w => (w, Raise e).

Definition bind {A B : Type} (m : io A) (k : A -> io B) : io B :=
  fun w =>
    match m w with
    | (w', Ok a) => k a w'
    | (w', Raise e) => (w', Raise e)
    end.

Notation "x <- m ;; k" := (bind m (fun x => k))
  (at level 61, m at next level, right associativity).
Notation "m ;;; k" := (bind m (fun _ => k))
  (at level 61, right associativity).

(** [for x in xs: body] *)
Fixpoint for_each {A : Type} (xs : list A) (body : A -> io unit) : io unit :=
  match xs with
  | [] => ret tt
  | x :: xs' => body x ;;; for_each xs' body
  end.

Definition dir_of (f : folder) (w : world) : directory :=
  match f with
  | UPLOAD_FOLDER => uploads w
  | OUTPUT_FOLDER => outputs w
  end.

Definition with_dir (f : folder) (d : directory) (w : world) : world :=
  match f with
  | UPLOAD_FOLDER => World d (outputs w) (stdout w)
  | OUTPUT_FOLDER => World (uploads w) d (stdout w)
  end.

Fixpoint dir_lookup (name : text) (d : directory) : option file_data :=
  match d with
  | [] => None
  | (n, c) :: d' => if text_eqb n name then Some c else dir_lookup name d'
  end.

(** Writing truncates an existing file in place and otherwise adds an entry. *)
Fixpoint dir_store (name : text) (c : file_data) (d : directory) : directory :=
  match d with
  | [] => [(name, c)]
  | (n, c') :: d' =>
      if text_eqb n name then (n, c) :: d' else (n, c') :: dir_store name c d'
  end.

Definition dir_remove (name : text) (d : directory) : directory :=
  filter (fun e => negb (text_eqb (fst e) name)) d.

(** A path is [os.path.join(folder, name)]. *)
Definition path : Type := folder * text.

(** [os.listdir] *)
Definition listdir (f : folder) : io (list text) :=
  fun w => (w, Ok (map fst (dir_of f w))).

(** [os.remove] *)
Definition os_remove (p : path) : io unit :=
  fun w =>
    match dir_lookup (snd p) (dir_of (fst p) w) with
    | None => (w, Raise FileNotFoundError)
    | Some _ => (with_dir (fst p) (dir_remove (snd p) (dir_of (fst p) w)) w, Ok tt)
    end.

(** [print] *)
Definition print (s : text) : io unit :=
  fun w => (World (uploads w) (outputs w) (stdout w ++ [s]), Ok tt).

(** Reading in text mode turns "\r\n" and a lone "\r" into "\n". *)
Fixpoint universal_newlines (s : text) : text :=
  match s with
  | [] => []
  | c :: s' =>
      if is_code 13 c then
        LF :: match s' with
              | c' :: s'' =>
                  if is_code 10 c' then universal_newlines s''
                  else universal_newlines s'
              | [] => []
              end
      else c :: universal_newlines s'
  end.

(** [open(path, "r", encoding="utf-8")] followed by [read()] *)
Definition read_text (p : path) : io text :=
  fun w =>
    match dir_lookup (snd p) (dir_of (fst p) w) with
    | None => (w, Raise FileNotFoundError)
    | Some NotUtf8 => (w, Raise UnicodeDecodeError)
    | Some (Utf8 t) => (w, Ok (universal_newlines t))
    end.

(** [open(path, "w", encoding="utf-8")] followed by [write(t)], on a system
    whose line separator is "\n" *)
Definition write_text (p : path) (t : text) : io unit :=
  fun w => (with_dir (fst p) (dir_store (snd p) (Utf8 t) (dir_of (fst p) w)) w, Ok tt).

(** The lines of a text, each with its line feed. *)
Fixpoint lines_of (s : text) : list text :=
  match s with
  | [] => []
  | c :: s' =>
      if is_code 10 c then [c] :: lines_of s'
      else match lines_of s' with
           | [] => [[c]]
           | l :: ls => (c :: l) :: ls
           end
  end.

(** [file.readlines()] *)
Definition readlines (p : path) : io (list text) :=
  t <- read_text p ;; ret (lines_of t).

(** ** extract_service_referrals *)

Record referral : Type := Referral {
  sender : text;
  business_name : text;
  contact : text;
  message : text
}.

Definition keywords : list text :=
  map txt [ "recommend"; "try"; "call"; "great"; "looking for";
            "know a good"; "fixed my"; "super reliable" ]%string.

Definition unknown_business : text := txt "Unknown Business".
Definition no_contact_found : text := txt "No Contact Found".

(** The body of the loop over the lines: the record the line adds, if any. *)
Definition extract_line (line : text) : option referral :=
  match re_search line_re line with
  | Some m =>
      let sender := group 1 m in
      let message := group 2 m in
      if existsb (fun keyword => contains keyword (lower message)) keywords
      then
        let phone_numbers := re_findall phone_re message in
        let business_match := re_search business_re message in
        let business_name :=
          match business_match with
          | Some bm => group0 bm
          | None => unknown_business
          end in
        Some (Referral sender business_name
                (match phone_numbers with
                 | p :: _ => p
                 | [] => no_contact_found
                 end)
                message)
      else None
  | None => None
  end.

Definition extract_lines (lines : list text) : list referral :=
  fold_left
    (fun referrals line =>
       match extract_line line with
       | Some r => referrals ++ [r]
       | None => referrals
       end)
    lines [].

Definition extract_service_referrals (file_path : path) : io (list referral) :=
  lines <- readlines file_path ;; ret (extract_lines lines).

(** ** json.dump with indent=4, and json.load *)

(** The values the reader can return; numbers are left out, the writer of
    this program never produces one. *)
#[warnings="-register-all"]
Inductive json : Type :=
| JNull
| JBool (b : bool)
| JStr (s : text)
| JArr (items : list json)
| JObj (members : list (text * json)).

Definition QUOTE : ascii := "034"%char.
Definition BACKSLASH : ascii := "092"%char.

Definition hex_digit (n : nat) : ascii :=
  if n <? 10 then ascii_of_nat (48 + n) else ascii_of_nat (87 + n).

(** The encoder's string escapes (ensure_ascii is on). *)
Definition escape_char (c : ascii) : text :=
  if is_code 34 c then [BACKSLASH; QUOTE]
  else if is_code 92 c then [BACKSLASH; BACKSLASH]
  else if is_code 10 c then BACKSLASH :: txt "n"
  else if is_code 13 c then BACKSLASH :: txt "r"
  else if is_code 9 c then BACKSLASH :: txt "t"
  else if is_code 12 c then BACKSLASH :: txt "f"
  else if is_code 8 c then BACKSLASH :: txt "b"
  else if in_range 32 126 c then [c]
  else BACKSLASH :: txt "u00" ++ [hex_digit (code c / 16); hex_digit (code c mod 16)].

Definition encode_string (s : text) : text :=
  QUOTE :: flat_map escape_char s ++ [QUOTE].

Fixpoint join (sep : text) (parts : list text) : text :=
  match parts with
  | [] => []
  | [p] => p
  | p :: ps => p ++ sep ++ join sep ps
  end.

Definition newline_indent (level : nat) : text :=
  LF :: concat (repeat (txt "    ") level).

Fixpoint encode (level : nat) (v : json) : text :=
  match v with
  | JNull => txt "null"
  | JBool true => txt "true"
  | JBool false => txt "false"
  | JStr s => encode_string s
  | JArr [] => txt "[]"
  | JArr items =>
      txt "[" ++ newline_indent (S level)
      ++ join (txt "," ++ newline_indent (S level))
              (map (encode (S level)) items)
      ++ newline_indent level ++ txt "]"
  | JObj [] => txt "{}"
  | JObj members =>
      txt "{" ++ newline_indent (S level)
      ++ join (txt "," ++ newline_indent (S level))
              (map (fun kv => encode_string (fst kv) ++ txt ": "
                              ++ encode (S level) (snd kv)) members)
      ++ newline_indent level ++ txt "}"
  end.

Definition json_dumps (v : json) : text := encode 0 v.

(** The decoder's whitespace: space, tab, line feed, carriage return. *)
Definition is_json_ws (c : ascii) : bool :=
  is_code 32 c || is_code 9 c || is_code 10 c || is_code 13 c.

Fixpoint skip_ws (s : text) : text :=
  match s with
  | c :: s' => if is_json_ws c then skip_ws s' else s
  | [] => []
  end.

Definition hex_value (c : ascii) : option nat :=
  if in_range 48 57 c then Some (code c - 48)
  else if in_range 97 102 c then Some (code c - 87)
  else if in_range 65 70 c then Some (code c - 55)
  else None.

(** Four hex digits; a code point from 256 on has no character here. *)
Definition hex4 (a b c d : ascii) : option ascii :=
  match hex_value a, hex_value b, hex_value c, hex_value d with
  | Some x, Some y, Some z, Some t =>
      if (x =? 0) && (y =? 0) then Some (ascii_of_nat (16 * z + t)) else None
  | _, _, _, _ => None
  end.

(** The string scanner in strict mode, from just after the opening quote;
    [acc] holds the characters read so far, last first. *)
Fixpoint scan_string (s : text) (acc : text) : option (text * text) :=
  match s with
  | [] => None
  | c :: s' =>
      if is_code 34 c then Some (rev acc, s')
      else if is_code 92 c then
        match s' with
        | [] => None
        | e :: s'' =>
            if is_code 34 e || is_code 92 e || is_code 47 e
            then scan_string s'' (e :: acc)
            else if is_code 98 e then scan_string s'' ("008"%char :: acc)
            else if is_code 102 e then scan_string s'' ("012"%char :: acc)
            else if is_code 110 e then scan_string s'' (LF :: acc)
            else if is_code 114 e then scan_string s'' (CR :: acc)
            else if is_code 116 e then scan_string s'' ("009"%char :: acc)
            else if is_code 117 e then
              match s'' with
              | h1 :: h2 :: h3 :: h4 :: s4 =>
                  match hex4 h1 h2 h3 h4 with
                  | Some x => scan_string s4 (x :: acc)
                  | None => None
                  end
              | _ => None
              end
            else None
        end
      else if code c <? 32 then None
      else scan_string s' (c :: acc)
  end.

(** [dict]: a key set again keeps its place and takes the new value. *)
Fixpoint dict_set (k : text) (v : json) (d : list (text * json))
  : list (text * json) :=
  match d with
  | [] => [(k, v)]
  | (k', v') :: d' =>
      if text_eqb k' k then (k', v) :: d' else (k', v') :: dict_set k v d'
  end.

Definition dict_of (pairs : list (text * json)) : list (text * json) :=
  fold_left (fun d kv => dict_set (fst kv) (snd kv) d) pairs [].

Fixpoint dict_get (k : text) (d : list (text * json)) : option json :=
  match d with
  | [] => None
  | (k', v) :: d' => if text_eqb k' k then Some v else dict_get k d'
  end.

(** What the parser is reading: a value, the items of an array from the
    start of an item, or the members of an object from the start of a key. *)
Inductive pmode : Type :=
| PValue
| PItems (acc : list json)
| PMembers (acc : list (text * json)).

Fixpoint parse (fuel : nat) (m : pmode) (s : text) : option (json * text) :=
  match fuel with
  | O => None
  | S f =>
      match m with
      | PValue =>
          match s with
          | [] => None
          | c :: s' =>
              if is_code 34 c then
                match scan_string s' [] with
                | Some (str, r) => Some (JStr str, r)
                | None => None
                end
              else if is_code 91 c then
                match skip_ws s' with
                | [] => None
                | c2 :: s2 =>
                    if is_code 93 c2 then Some (JArr [], s2)
                    else parse f (PItems []) (c2 :: s2)
                end
              else if is_code 123 c then
                match skip_ws s' with
                | [] => None
                | c2 :: s2 =>
                    if is_code 125 c2 then Some (JObj [], s2)
                    else parse f (PMembers []) (c2 :: s2)
                end
              else if starts_with (txt "null") s then Some (JNull, skipn 4 s)
              else if starts_with (txt "true") s then Some (JBool true, skipn 4 s)
              else if starts_with (txt "false") s then Some (JBool false, skipn 5 s)
              else None
          end
      | PItems acc =>
          match parse f PValue s with
          | None => None
          | Some (v, r) =>
              match skip_ws r with
              | [] => None
              | c :: r' =>
                  if is_code 93 c then Some (JArr (rev (v :: acc)), r')
                  else if is_code 44 c then parse f (PItems (v :: acc)) (skip_ws r')
                  else None
              end
          end
      | PMembers acc =>
          match s with
          | [] => None
          | c :: s' =>
              if is_code 34 c then
                match scan_string s' [] with
                | None => None
                | Some (k, r) =>
                    match skip_ws r with
                    | [] => None
                    | c1 :: r1 =>
                        if is_code 58 c1 then
                          match parse f PValue (skip_ws r1) with
                          | None => None
                          | Some (v, r2) =>
                              match skip_ws r2 with
                              | [] => None
                              | c3 :: r3 =>
                                  if is_code 125 c3
                                  then Some (JObj (dict_of (rev ((k, v) :: acc))), r3)
                                  else if is_code 44 c3
                                  then parse f (PMembers ((k, v) :: acc)) (skip_ws r3)
                                  else None
                              end
                          end
                        else None
                    end
                end
              else None
          end
      end
  end.

(** [json.loads]: one value, with whitespace allowed around it and nothing
    else after it.  [None] stands for a decoding error (and for a document
    with a number or a character from code point 256 on). *)
Definition json_loads (s : text) : option json :=
  match parse (S (length s)) PValue (skip_ws s) with
  | Some (v, r) =>
      match skip_ws r with
      | [] => Some v
      | _ :: _ => None
      end
  | None => None
  end.

(** A referral as the [dict] the extractor builds. *)
Definition to_json (r : referral) : json :=
  JObj [ (txt "sender", JStr (sender r));
         (txt "business_name", JStr (business_name r));
         (txt "contact", JStr (contact r));
         (txt "message", JStr (message r)) ].

(** [save_to_json] *)
Definition save_to_json (referrals : list referral) (output_file : path)
  : io unit :=
  write_text output_file (json_dumps (JArr (map to_json referrals))).

(** [json.load] on an open file *)
Definition json_load (p : path) : io json :=
  t <- read_text p ;;
  match json_loads t with
  | Some v => ret v
  | None => raise JSONDecodeError
  end.

(** ** save_to_csv *)

Definition csv_special (c : ascii) : bool :=
  is_code 44 c || is_code 34 c || is_code 13 c || is_code 10 c.

Definition csv_field (s : text) : text :=
  if existsb csv_special s
  then QUOTE :: flat_map (fun c => if is_code 34 c then [c; c] else [c]) s
       ++ [QUOTE]
  else s.

Definition csv_row (fields : list text) : text :=
  join (txt ",") (map csv_field fields) ++ [CR; LF].

Definition fieldnames : list text :=
  map txt [ "sender"; "business_name"; "contact"; "message" ]%string.

Definition csv_dumps (referrals : list referral) : text :=
  csv_row fieldnames
  ++ flat_map (fun r => csv_row [sender r; business_name r; contact r; message r])
              referrals.

Definition save_to_csv (referrals : list referral) (output_file : path)
  : io unit :=
  write_text output_file (csv_dumps referrals).

(** ** process_uploaded_files *)

Definition process_file (filename : text) : io unit :=
  if endswith filename (txt ".txt") then
    let file_path := (UPLOAD_FOLDER, filename) in
    print (txt "Processing " ++ filename ++ txt "...") ;;;
    referrals <- extract_service_referrals file_path ;;
    match referrals with
    | _ :: _ =>
        let json_file := (OUTPUT_FOLDER, replace (txt ".txt") (txt ".json") filename) in
        let csv_file := (OUTPUT_FOLDER, replace (txt ".txt") (txt ".csv") filename) in
        save_to_json referrals json_file ;;;
        save_to_csv referrals csv_file ;;;
        print (txt "Extracted " ++ str_of_nat (length referrals)
               ++ txt " referrals from " ++ filename ++ txt ".")
    | [] => print (txt "No referrals found in " ++ filename ++ txt ".")
    end ;;;
    os_remove file_path
  else ret tt.

Definition process_uploaded_files : io unit :=
  names <- listdir UPLOAD_FOLDER ;;
  for_each names process_file.

(** ** search_referrals *)

(** [for r in referrals]: the items of a list, the keys of a dict, the
    characters of a string. *)
Definition iterate (v : json) : result (list json) :=
  match v with
  | JArr items => Ok items
  | JObj members => Ok (map (fun kv => JStr (fst kv)) members)
  | JStr s => Ok (map (fun c => JStr [c]) s)
  | JNull | JBool _ => Raise TypeError
  end.

(** [query.lower() in r["message"].lower()] *)
Definition message_has (query : text) (r : json) : result bool :=
  match r with
  | JObj members =>
      match dict_get (txt "message") members with
      | Some (JStr m) => Ok (contains (lower query) (lower m))
      | Some _ => Raise AttributeError
      | None => Raise KeyError
      end
  | _ => Raise TypeError
  end.

(** The list comprehension: the items that pass the test, or the first
    error the test raises. *)
Fixpoint select (query : text) (items : list json) : result (list json) :=
  match items with
  | [] => Ok []
  | r :: items' =>
      match message_has query r with
      | Raise e => Raise e
      | Ok b =>
          match select query items' with
          | Raise e => Raise e
          | Ok l => Ok (if b then r :: l else l)
          end
      end
  end.

Definition lift {A : Type} (r : result A) : io A := fun w => (w, r).

Fixpoint search_files (query : text) (names : list text) (results : list json)
  : io (list json) :=
  match names with
  | [] => ret results
  | filename :: names' =>
      if endswith filename (txt ".json") then
        referrals <- json_load (OUTPUT_FOLDER, filename) ;;
        items <- lift (iterate referrals) ;;
        found <- lift (select query items) ;;
        search_files query names' (results ++ found)
      else search_files query names' results
  end.

(** The response: the query and the results. *)
Definition search_referrals (query : text) : io (text * list json) :=
  names <- listdir OUTPUT_FOLDER ;;
  results <- search_files query names [] ;;
  ret (query, results).

(** ** Vocabulary of the statements *)

(** [p] occurs in [s] as a substring. *)
Definition occurs (p s : text) : Prop := exists a b, s = a ++ p ++ b.

(** Every character of [s] is in the class [p]. *)
Definition all_in (p : ascii -> bool) (s : text) : Prop := forallb p s = true.

(** The length of the longest prefix of [l] made of characters of [p]. *)
Fixpoint span_len (p : ascii -> bool) (l : text) : nat :=
  match l with
  | x :: l' => if p x then S (span_len p l') else 0
  | [] => 0
  end.

(** The position [k] characters further on. *)
Definition advance (k : nat) (st : mstate) : mstate :=
  MState (rev (firstn k (rest st)) ++ seen st) (skipn k (rest st)) (caps st).

(** From [st] to [st'] the matcher has passed exactly the text [l]. *)
Definition moved (l : text) (st st' : mstate) : Prop :=
  rest st = l ++ rest st' /\ seen st' = rev l ++ seen st.

(** The candidate lengths of a repetition that needs [lo] rounds, may add
    [extra] more and finds [m] characters of its class ahead, in the
    matcher's order of preference. *)
Definition lengths (greedy : bool) (lo extra m : nat) : list nat :=
  if lo <=? m then
    let ks := seq lo (S (Nat.min extra (m - lo))) in
    if greedy then rev ks else ks
  else [].

(** The pattern [r] matches, wherever it stands, exactly the texts of [P]
    and leaves the captured groups as they were. *)
Definition piece (P : text -> Prop) (r : regex) : Prop :=
  forall st st', In st' (run r st) <->
                 exists l, P l /\ moved l st st' /\ caps st' = caps st.

Definition digits (n : nat) (l : text) : Prop :=
  length l = n /\ all_in is_digit l.

(** What the line pattern reads before the sender: an opening bracket, two
    digits, a slash, two digits, a slash, two digits, a comma and a space,
    one or two digits, a colon, two digits, a space, two letters each among
    A, P and M, a closing bracket and a space. *)
Definition stamp (s : text) : Prop :=
  exists dd mm yy h mi ap,
    s = txt "[" ++ dd ++ txt "/" ++ mm ++ txt "/" ++ yy ++ txt ", " ++ h
        ++ txt ":" ++ mi ++ txt " " ++ ap ++ txt "] "
    /\ digits 2 dd /\ digits 2 mm /\ digits 2 yy
    /\ (digits 1 h \/ digits 2 h) /\ digits 2 mi
    /\ length ap = 2 /\ all_in is_apm ap.

(** The same with the marker AM or PM. *)
Definition stamp_am_pm (s : text) : Prop :=
  exists dd mm yy h mi ap,
    s = txt "[" ++ dd ++ txt "/" ++ mm ++ txt "/" ++ yy ++ txt ", " ++ h
        ++ txt ":" ++ mi ++ txt " " ++ ap ++ txt "] "
    /\ digits 2 dd /\ digits 2 mm /\ digits 2 yy
    /\ (digits 1 h \/ digits 2 h) /\ digits 2 mi
    /\ (ap = txt "AM" \/ ap = txt "PM").

(** The end of a line: nothing, or a line feed and what follows it. *)
Definition line_end (eol : text) : Prop := eol = [] \/ exists t, eol = LF :: t.

(** The pieces of the line pattern before the sender, and from the sender on. *)
Definition stamp_pieces : list regex :=
  [ Lit (txt "["); Exactly 2 (Cls is_digit); Lit (txt "/");
    Exactly 2 (Cls is_digit); Lit (txt "/"); Exactly 2 (Cls is_digit);
    Lit (txt ", "); Between 1 2 (Cls is_digit); Lit (txt ":");
    Exactly 2 (Cls is_digit); Lit (txt " "); Exactly 2 (Cls is_apm);
    Lit (txt "] ") ].

Definition split_pieces : list regex :=
  [ Grp 1 (LazyStar (Cls is_dot)); Lit (txt ": "); Grp 2 (Star (Cls is_dot)) ].

(** A separator of the phone pattern: nothing, or one character among the
    hyphen, the dot and the white space of "\s". *)
Definition separator (s : text) : Prop := length s <= 1 /\ all_in is_sep s.

(** Ten digits grouped 3-3-4 with a separator between the groups. *)
Definition phone_shape (p : text) : Prop :=
  exists a s1 b s2 c,
    p = a ++ s1 ++ b ++ s2 ++ c
    /\ digits 3 a /\ separator s1 /\ digits 3 b /\ separator s2 /\ digits 4 c.

(** The same where a separator is nothing, a hyphen, a dot or one space. *)
Definition plain_separator (s : text) : Prop :=
  s = [] \/ s = txt "-" \/ s = txt "." \/ s = txt " ".

Definition plain_phone_shape (p : text) : Prop :=
  exists a s1 b s2 c,
    p = a ++ s1 ++ b ++ s2 ++ c
    /\ digits 3 a /\ plain_separator s1 /\ digits 3 b /\ plain_separator s2
    /\ digits 4 c.

Definition ends_in_word (l : text) : bool :=
  match rev l with x :: _ => is_word x | [] => false end.

Definition starts_in_word (l : text) : bool :=
  match l with x :: _ => is_word x | [] => false end.

(** "\b" holds between [before] and [after]: a word character on one side
    only. *)
Definition word_boundary (before after : text) : Prop :=
  xorb (ends_in_word before) (starts_in_word after) = true.

(** [p] is an occurrence of the phone pattern in [msg], after [a] and
    before [b]. *)
Definition phone_at (msg a p b : text) : Prop :=
  msg = a ++ p ++ b /\ phone_shape p
  /\ word_boundary a (p ++ b) /\ word_boundary (a ++ p) b.

Definition phone_digits : list regex :=
  [ Exactly 3 (Cls is_digit); Opt (Cls is_sep); Exactly 3 (Cls is_digit);
    Opt (Cls is_sep); Exactly 4 (Cls is_digit) ].

(** The position reached in [msg] after the text [a]. *)
Definition at_pos (a b : text) : mstate := MState (rev a) b [].

(** A capitalised word: an upper-case letter and one or more lower-case
    letters. *)
Definition cap_word (w : text) : Prop :=
  exists u ls, w = u :: ls /\ is_upper u = true
               /\ 1 <= length ls /\ all_in is_lower ls.

(** One white-space character of "\s" and a capitalised word. *)
Definition spaced_word (b : text) : Prop :=
  exists sp w, b = sp :: w /\ is_space sp = true /\ cap_word w.

(** A run of capitalised words: a capitalised word and any number of
    spaced words after it. *)
Definition cap_run (l : text) : Prop :=
  exists w more, l = w ++ concat more /\ cap_word w /\ Forall spaced_word more.

(** The same where the words are separated by one space character. *)
Definition plain_spaced_word (b : text) : Prop :=
  exists w, b = " "%char :: w /\ cap_word w.

Definition plain_cap_run (l : text) : Prop :=
  exists w more,
    l = w ++ concat more /\ cap_word w /\ Forall plain_spaced_word more.

Definition business_body : regex :=
  Seq [ Cls is_space; Cls is_upper; Plus (Cls is_lower) ].

Definition business_words : regex :=
  Seq [ Cls is_upper; Plus (Cls is_lower); Star business_body ].

(** The next character, if any, is not a lower-case letter. *)
Definition word_ends (st : mstate) : Prop :=
  match rest st with
  | x :: _ => is_lower x = false
  | [] => True
  end.

(** A line of the shape the line pattern looks for, anywhere in the line:
    a stamp, a sender without line feed, a colon and a space. *)
Definition transcript_shape (line : text) : Prop :=
  exists pre st who tail,
    line = pre ++ st ++ who ++ txt ": " ++ tail
    /\ stamp st /\ all_in is_dot who.

(** The same with the marker AM or PM. *)
Definition am_pm_shape (line : text) : Prop :=
  exists pre st who tail,
    line = pre ++ st ++ who ++ txt ": " ++ tail
    /\ stamp_am_pm st /\ all_in is_dot who.

Definition TAB : ascii := "009"%char.

(** What the output folder holds under a name: the JSON file
    [save_to_json] writes for a list of referrals, or anything else. *)
Inductive stored : Type :=
| JsonOf (rs : list referral)
| Other (d : file_data).

Definition stored_data (s : stored) : file_data :=
  match s with
  | JsonOf rs => Utf8 (json_dumps (JArr (map to_json rs)))
  | Other d => d
  end.

Definition stored_entry (e : text * stored) : text * file_data :=
  (fst e, stored_data (snd e)).

(** The referrals whose message holds the query, both lower-cased. *)
Definition hits (query : text) (rs : list referral) : list referral :=
  filter (fun r => contains (lower query) (lower (message r))) rs.

Definition hits_of_file (query : text) (e : text * stored) : list json :=
  if endswith (fst e) (txt ".json") then
    match snd e with
    | JsonOf rs => map to_json (hits query rs)
    | Other _ => []
    end
  else [].

(** "\b" holds at a position of the matcher. *)
Definition edge (st : mstate) : bool := xorb (word_before st) (word_after st).

(** The keyword test of the extractor. *)
Definition has_keyword (message : text) : bool :=
  existsb (fun keyword => contains keyword (lower message)) keywords.

(** The world after one more printed line. *)
Definition after_print (s : text) (w : world) : world :=
  World (uploads w) (outputs w) (stdout w ++ [s]).

Definition listed (n : text) (names : list text) : bool :=
  existsb (text_eqb n) names.

(** The text of one member of an object whose value is a string. *)
Definition member (k v : text) : text :=
  encode_string k ++ txt ": " ++ encode_string v.

(** The text between the brackets of the array [save_to_json] writes. *)
Definition item_sep : text := txt "," ++ newline_indent 1.

Definition items_text (rs : list referral) : text :=
  join item_sep (map (encode 1) (map to_json rs)).

(** A text without carriage return. *)
Definition no_cr (t : text) : Prop := Forall (fun c => is_code 13 c = false) t.

(** ** upload_chat *)




(** ** Further vocabulary *)

(** A text that holds neither line feed nor carriage return. *)
Definition one_line (s : text) : Prop :=
  all_in (fun c => negb (is_code 10 c) && negb (is_code 13 c)) s.

(** The records a file with the text [t] yields. *)
Definition records_of (t : text) : list referral :=
  extract_lines (lines_of (universal_newlines t)).

(** How often the character [c] stands in [s]. *)
Definition count_char (c : ascii) (s : text) : nat := count_occ ascii_dec s c.

(** A printable ASCII character or a line feed. *)
Definition plain_ascii (c : ascii) : bool := in_range 32 126 c || is_code 10 c.

Definition json_name (filename : text) : text :=
  replace (txt ".txt") (txt ".json") filename.

Definition csv_name (filename : text) : text :=
  replace (txt ".txt") (txt ".csv") filename.

(** The output folder after the two files of [filename] were written for
    the referrals [rs]: the JSON file first, the CSV file after it. *)
Definition with_outputs (filename : text) (rs : list referral) (d : directory)
  : directory :=
  dir_store (csv_name filename) (Utf8 (csv_dumps rs))
    (dir_store (json_name filename)
       (Utf8 (json_dumps (JArr (map to_json rs)))) d).

(** The same text with Windows line ends: every line feed becomes a
    carriage return and a line feed. *)
Definition crlf (t : text) : text :=
  flat_map (fun c => if is_code 10 c then [CR; LF] else [c]) t.


(** * Lists and strings *)

(** A fact about every character, checked on each of the 256. *)
Ltac each_char c := destruct c as [[] [] [] [] [] [] [] []].

Lemma text_eqb_eq (a b : text) : text_eqb a b = true <-> a = b.
Proof.
  revert b; induction a as [|x a IH]; intros [|y b]; simpl; split;
    try congruence; try reflexivity.
  - rewrite andb_true_iff, Ascii.eqb_eq, IH. intros [-> ->]; reflexivity.
  - intros E; injection E as -> ->.
    rewrite andb_true_iff, Ascii.eqb_eq, IH. split; reflexivity.
Qed.

Lemma text_eqb_refl (a : text) : text_eqb a a = true.
Proof. apply text_eqb_eq; reflexivity. Qed.

Lemma text_eqb_neq (a b : text) : text_eqb a b = false <-> a <> b.
Proof.
  rewrite <- text_eqb_eq. destruct (text_eqb a b); split; congruence.
Qed.

Lemma starts_with_spec (p s : text) :
  starts_with p s = true <-> exists r, s = p ++ r.
Proof.
  revert s; induction p as [|x p IH]; intros s; simpl.
  - split; [intros _; exists s; reflexivity | reflexivity].
  - destruct s as [|y s].
    + split; [discriminate | intros [r E]; discriminate].
    + rewrite andb_true_iff, Ascii.eqb_eq, IH. split.
      * intros [-> [r ->]]. exists r; reflexivity.
      * intros [r E]. injection E as -> ->. split; [reflexivity | exists r; reflexivity].
Qed.

Lemma starts_with_app (p r : text) : starts_with p (p ++ r) = true.
Proof. apply starts_with_spec. exists r; reflexivity. Qed.

Lemma contains_spec (p s : text) : contains p s = true <-> occurs p s.
Proof.
  unfold occurs. induction s as [|y s IH].
  - simpl. rewrite orb_false_r, starts_with_spec. split.
    + intros [r E]. exists [], r. exact E.
    + intros [a [b E]]. destruct a; simpl in E.
      * exists b; exact E.
      * discriminate.
  - change (contains p (y :: s)) with (starts_with p (y :: s) || contains p s).
    rewrite orb_true_iff, starts_with_spec, IH. split.
    + intros [[r E] | [a [b E]]].
      * exists [], r. exact E.
      * exists (y :: a), b. rewrite E. reflexivity.
    + intros [a [b E]]. destruct a as [|x a]; simpl in E.
      * left. exists b; exact E.
      * right. injection E as -> ->. exists a, b; reflexivity.
Qed.

(** * Spans *)

Lemma span_len_le (p : ascii -> bool) (l : text) : span_len p l <= length l.
Proof. induction l as [|x l IH]; simpl; [lia | destruct (p x); simpl; lia]. Qed.

Lemma span_len_firstn (p : ascii -> bool) (l : text) (k : nat) :
  k <= span_len p l -> forallb p (firstn k l) = true.
Proof.
  revert k; induction l as [|x l IH]; intros k H; simpl in *.
  - destruct k; reflexivity.
  - destruct k; [reflexivity|]. simpl. destruct (p x) eqn:E; [|lia].
    simpl. apply IH. lia.
Qed.

Lemma span_len_app (p : ascii -> bool) (l r : text) :
  forallb p l = true -> span_len p (l ++ r) = length l + span_len p r.
Proof.
  induction l as [|x l IH]; simpl; [reflexivity|].
  rewrite andb_true_iff. intros [-> H]. rewrite IH by exact H. reflexivity.
Qed.

Lemma span_len_skipn (p : ascii -> bool) (l : text) (k : nat) :
  k <= span_len p l -> span_len p (skipn k l) = span_len p l - k.
Proof.
  revert k; induction l as [|x l IH]; intros k H; simpl in *.
  - destruct k; reflexivity.
  - destruct k; simpl; [destruct (p x); reflexivity|].
    destruct (p x); [|lia]. simpl. apply IH. lia.
Qed.

Lemma span_len_stop (p : ascii -> bool) (l : text) :
  match skipn (span_len p l) l with
  | x :: _ => p x = false
  | [] => True
  end.
Proof.
  induction l as [|x l IH]; simpl; [exact I|].
  destruct (p x) eqn:E; simpl; [exact IH | exact E].
Qed.

(** * Positions *)

Lemma advance_0 (st : mstate) : advance 0 st = st.
Proof. destruct st; reflexivity. Qed.

Lemma firstn_plus (A : Type) (l : list A) (j k : nat) :
  firstn (j + k) l = firstn j l ++ firstn k (skipn j l).
Proof.
  revert j; induction l as [|x l IH]; intros j.
  - destruct j, k; reflexivity.
  - destruct j; simpl; [reflexivity|]. rewrite IH. reflexivity.
Qed.

Lemma skipn_plus (A : Type) (l : list A) (j k : nat) :
  skipn (j + k) l = skipn k (skipn j l).
Proof.
  revert j; induction l as [|x l IH]; intros j.
  - destruct j, k; reflexivity.
  - destruct j; simpl; [reflexivity|]. apply IH.
Qed.

Lemma rest_advance (k : nat) (st : mstate) :
  rest (advance k st) = skipn k (rest st).
Proof. reflexivity. Qed.

Lemma caps_advance (k : nat) (st : mstate) : caps (advance k st) = caps st.
Proof. reflexivity. Qed.

Lemma advance_advance (j k : nat) (st : mstate) :
  advance k (advance j st) = advance (j + k) st.
Proof.
  destruct st as [b l c]. unfold advance; simpl.
  rewrite firstn_plus, skipn_plus, rev_app_distr, app_assoc. reflexivity.
Qed.

Lemma moved_advance (k : nat) (st : mstate) :
  moved (firstn k (rest st)) st (advance k st).
Proof. split; simpl; [symmetry; apply firstn_skipn | reflexivity]. Qed.

Lemma moved_trans (l1 l2 : text) (s1 s2 s3 : mstate) :
  moved l1 s1 s2 -> moved l2 s2 s3 -> moved (l1 ++ l2) s1 s3.
Proof.
  intros [R1 S1] [R2 S2]. split.
  - rewrite R1, R2, app_assoc. reflexivity.
  - rewrite S2, S1, rev_app_distr, app_assoc. reflexivity.
Qed.

Lemma moved_is_advance (l : text) (st st' : mstate) :
  moved l st st' -> caps st' = caps st -> st' = advance (length l) st.
Proof.
  destruct st as [b r c], st' as [b' r' c']; simpl. intros [R S] C; simpl in *.
  subst. unfold advance; simpl.
  rewrite firstn_app, Nat.sub_diag, firstn_all, skipn_app, Nat.sub_diag, skipn_all.
  simpl. rewrite !app_nil_r. reflexivity.
Qed.

Lemma consumed_moved (l : text) (st st' : mstate) :
  moved l st st' -> consumed st st' = l.
Proof.
  intros [_ S]. unfold consumed. rewrite S, length_app, length_rev.
  replace (length l + length (seen st) - length (seen st)) with (length (rev l) + 0)
    by (rewrite length_rev; lia).
  rewrite firstn_app_2. simpl. rewrite app_nil_r. apply rev_involutive.
Qed.

(** * The matcher on a class *)

Lemma step_class_eq (p : ascii -> bool) (st : mstate) :
  step_class p st = if 1 <=? span_len p (rest st) then [advance 1 st] else [].
Proof.
  destruct st as [b l c]. unfold step_class, advance; simpl.
  destruct l as [|x l]; simpl; [reflexivity|]. destruct (p x); reflexivity.
Qed.

Lemma times_class (p : ascii -> bool) (n : nat) (st : mstate) :
  times (step_class p) n st =
  if n <=? span_len p (rest st) then [advance n st] else [].
Proof.
  revert st; induction n as [|n IH]; intros st.
  - simpl. rewrite advance_0. reflexivity.
  - simpl times. rewrite step_class_eq.
    destruct (Nat.leb_spec 1 (span_len p (rest st))) as [H|H].
    + simpl flat_map. rewrite app_nil_r, IH, rest_advance.
      rewrite (span_len_skipn p (rest st) 1) by exact H.
      rewrite advance_advance.
      destruct (Nat.leb_spec n (span_len p (rest st) - 1));
        destruct (Nat.leb_spec (S n) (span_len p (rest st))); try lia; reflexivity.
    + cbn [flat_map]. destruct (Nat.leb_spec (S n) (span_len p (rest st))); [lia | reflexivity].
Qed.

Lemma upto_class (p : ascii -> bool) (g : bool) (n : nat) (st : mstate) :
  upto (step_class p) g n st =
  map (fun k => advance k st) (lengths g 0 n (span_len p (rest st))).
Proof.
  unfold lengths. simpl Nat.leb. cbv iota. rewrite Nat.sub_0_r.
  revert st; induction n as [|n IH]; intros st.
  - rewrite Nat.min_0_l. destruct g; simpl; rewrite advance_0; reflexivity.
  - simpl upto. rewrite step_class_eq.
    destruct (Nat.leb_spec 1 (span_len p (rest st))) as [H|H].
    + simpl flat_map. rewrite app_nil_r, IH, rest_advance.
      rewrite (span_len_skipn p (rest st) 1) by exact H.
      replace (Nat.min (S n) (span_len p (rest st)))
        with (S (Nat.min n (span_len p (rest st) - 1))) by lia.
      set (m := Nat.min n (span_len p (rest st) - 1)).
      assert (E : forall ks, map (fun k => advance k (advance 1 st)) ks
                             = map (fun k => advance k st) (map S ks)).
      { intros ks. rewrite map_map. apply map_ext. intros k. apply advance_advance. }
      destruct g.
      * rewrite E, map_rev, seq_shift.
        change (seq 0 (S (S m))) with (0 :: seq 1 (S m)).
        change (rev (0 :: seq 1 (S m))) with (rev (seq 1 (S m)) ++ [0]).
        rewrite map_app. cbn [map]. rewrite advance_0. reflexivity.
      * rewrite E, seq_shift.
        change (seq 0 (S (S m))) with (0 :: seq 1 (S m)).
        cbn [map]. rewrite advance_0. reflexivity.
    + replace (Nat.min (S n) (span_len p (rest st))) with 0 by lia.
      destruct g; simpl; rewrite advance_0; reflexivity.
Qed.

Lemma map_add_seq (lo n : nat) : map (Nat.add lo) (seq 0 n) = seq lo n.
Proof.
  induction n as [|n IH]; [reflexivity|].
  rewrite !seq_S, map_app, IH. simpl. reflexivity.
Qed.

Lemma run_rep_class (lo : nat) (hi : option nat) (g : bool)
      (p : ascii -> bool) (st : mstate) :
  run (Rep lo hi g (Cls p)) st =
  map (fun k => advance k st)
      (lengths g lo (rounds lo hi (advance lo st)) (span_len p (rest st))).
Proof.
  simpl run. change (run (Cls p)) with (step_class p).
  rewrite times_class. unfold lengths.
  destruct (Nat.leb_spec lo (span_len p (rest st))) as [H|H]; [|reflexivity].
  simpl flat_map. rewrite app_nil_r, upto_class. unfold lengths.
  simpl Nat.leb. cbv iota. rewrite Nat.sub_0_r, rest_advance.
  rewrite span_len_skipn by exact H.
  set (m := Nat.min _ _).
  assert (E : forall ks, map (fun k => advance k (advance lo st)) ks
                         = map (fun k => advance k st) (map (Nat.add lo) ks)).
  { intros ks. rewrite map_map. apply map_ext. intros k. apply advance_advance. }
  rewrite E. destruct g; [rewrite map_rev|]; rewrite map_add_seq; reflexivity.
Qed.

Lemma in_lengths (g : bool) (lo extra m k : nat) :
  In k (lengths g lo extra m) <-> lo <= k /\ k <= lo + extra /\ k <= m.
Proof.
  unfold lengths. destruct (Nat.leb_spec lo m) as [H|H].
  - destruct g; [rewrite <- in_rev|]; rewrite in_seq; lia.
  - simpl. lia.
Qed.

Lemma in_run_rep_class (lo : nat) (hi : option nat) (g : bool)
      (p : ascii -> bool) (st s' : mstate) :
  In s' (run (Rep lo hi g (Cls p)) st) <->
  exists k, s' = advance k st /\ lo <= k
            /\ k <= lo + rounds lo hi (advance lo st)
            /\ k <= span_len p (rest st).
Proof.
  rewrite run_rep_class, in_map_iff. split.
  - intros [k [E H]]. apply in_lengths in H. exists k. split; [symmetry; exact E | exact H].
  - intros [k [E H]]. exists k. split; [symmetry; exact E | apply in_lengths; exact H].
Qed.

Lemma run_Chr (c : ascii) (st : mstate) :
  run (Chr c) st = if starts_with [c] (rest st) then [advance 1 st] else [].
Proof.
  destruct st as [b l cs]. simpl. unfold step_class, advance; simpl.
  destruct l as [|x l]; [reflexivity|]. simpl. rewrite andb_true_r. reflexivity.
Qed.

Lemma run_Lit_cons (c : ascii) (t : text) (st : mstate) :
  run (Lit (c :: t)) st = flat_map (run (Lit t)) (run (Chr c) st).
Proof.
  destruct t as [|c' t]; [|reflexivity].
  cbn [Lit]. induction (run (Chr c) st) as [|x l IH]; [reflexivity|].
  cbn [flat_map]. rewrite <- IH. reflexivity.
Qed.

Lemma run_Lit (t : text) (st : mstate) :
  run (Lit t) st =
  if starts_with t (rest st) then [advance (length t) st] else [].
Proof.
  revert st; induction t as [|c t IH]; intros st.
  - simpl. rewrite advance_0. reflexivity.
  - rewrite run_Lit_cons, run_Chr.
    destruct st as [b l cs]. destruct l as [|x l]; [reflexivity|].
    cbn [rest starts_with]. rewrite andb_true_r.
    destruct (Ascii.eqb c x) eqn:E; [|reflexivity].
    cbn [flat_map andb]. rewrite app_nil_r, IH, rest_advance.
    cbn [rest skipn]. destruct (starts_with t l); [|reflexivity].
    rewrite advance_advance. reflexivity.
Qed.

Lemma run_Seq_cons (r : regex) (rs : list regex) (st : mstate) :
  run (Seq (r :: rs)) st = flat_map (run (Seq rs)) (run r st).
Proof.
  destruct rs as [|r' rs]; [|reflexivity].
  simpl. induction (run r st) as [|x l IH]; [reflexivity|].
  simpl. rewrite <- IH. reflexivity.
Qed.

Lemma flat_map_assoc (A B C : Type) (f : A -> list B) (g : B -> list C)
      (l : list A) :
  flat_map g (flat_map f l) = flat_map (fun x => flat_map g (f x)) l.
Proof.
  induction l as [|x l IH]; [reflexivity|].
  simpl. rewrite flat_map_app, IH. reflexivity.
Qed.

Lemma run_Seq_app (rs1 rs2 : list regex) (st : mstate) :
  run (Seq (rs1 ++ rs2)) st = flat_map (run (Seq rs2)) (run (Seq rs1) st).
Proof.
  revert st; induction rs1 as [|r rs1 IH]; intros st.
  - simpl. rewrite app_nil_r. reflexivity.
  - rewrite <- app_comm_cons, !run_Seq_cons, flat_map_assoc.
    apply flat_map_ext. exact IH.
Qed.

(** * Heads *)

Lemma hd_flat_map (A B : Type) (f : A -> list B) (l : list A) (h : B) :
  hd_error (flat_map f l) = Some h ->
  exists l1 x l2, l = l1 ++ x :: l2
                  /\ (forall y, In y l1 -> f y = [])
                  /\ hd_error (f x) = Some h.
Proof.
  induction l as [|x l IH]; simpl; [discriminate|].
  destruct (f x) as [|y t] eqn:E; simpl.
  - intros H. destruct (IH H) as [l1 [x' [l2 [-> [N Hh]]]]].
    exists (x :: l1), x', l2. split; [reflexivity|]. split; [|exact Hh].
    intros z [<- | Hz]; [exact E | apply N; exact Hz].
  - intros H. exists [], x, l. split; [reflexivity|]. split.
    + intros z [].
    + rewrite E. exact H.
Qed.

Lemma hd_error_in (A : Type) (l : list A) (h : A) :
  hd_error l = Some h -> In h l.
Proof. destruct l; simpl; [discriminate | intros E; injection E as ->; left; reflexivity]. Qed.

Lemma hd_error_map (A B : Type) (f : A -> B) (l : list A) :
  hd_error (map f l) = option_map f (hd_error l).
Proof. destruct l; reflexivity. Qed.

(** * [re.search] *)

Lemma search_from_some (r : regex) (a b : text) (m : rmatch) :
  search_from r b a = Some m ->
  exists a1 a2,
    a = a1 ++ a2
    /\ m_from m = MState (rev a1 ++ b) a2 []
    /\ hd_error (run r (m_from m)) = Some (m_to m)
    /\ (forall a1' a2', a = a1' ++ a2' -> length a1' < length a1 ->
                        run r (MState (rev a1' ++ b) a2' []) = []).
Proof.
  revert b; induction a as [|c a IH]; intros b; simpl.
  - destruct (run r (MState b [] [])) as [|s t] eqn:E; [discriminate|].
    intros H; injection H as <-. exists [], []. simpl. rewrite E.
    repeat split. intros a1' a2' _ L. lia.
  - destruct (run r (MState b (c :: a) [])) as [|s t] eqn:E.
    + intros H. destruct (IH _ H) as [a1 [a2 [-> [F [Hd N]]]]].
      exists (c :: a1), a2. simpl. rewrite <- app_assoc. simpl.
      repeat split; [exact F | exact Hd |].
      intros a1' a2' Ea L. destruct a1' as [|c' a1']; simpl in *.
      * subst a2'. exact E.
      * injection Ea as <- Ea. rewrite <- app_assoc. simpl. apply N; [exact Ea | lia].
    + intros H; injection H as <-. exists [], (c :: a). simpl. rewrite E.
      repeat split. intros a1' a2' _ L. lia.
Qed.

Lemma search_from_none (r : regex) (a b : text) :
  search_from r b a = None <->
  forall a1 a2, a = a1 ++ a2 -> run r (MState (rev a1 ++ b) a2 []) = [].
Proof.
  revert b; induction a as [|c a IH]; intros b; simpl.
  - destruct (run r (MState b [] [])) as [|s t] eqn:E; split.
    + intros _ a1 a2 Ea. destruct a1; [|discriminate]. simpl in *. subst. exact E.
    + reflexivity.
    + discriminate.
    + intros H. specialize (H [] [] eq_refl). simpl in H. congruence.
  - destruct (run r (MState b (c :: a) [])) as [|s t] eqn:E; split.
    + intros H a1 a2 Ea. destruct a1 as [|c' a1]; simpl in *.
      * subst. exact E.
      * injection Ea as <- Ea. rewrite <- app_assoc. simpl.
        apply (proj1 (IH _) H). exact Ea.
    + intros H. apply IH. intros a1 a2 Ea.
      specialize (H (c :: a1) a2). simpl in H. rewrite <- app_assoc in H. simpl in H.
      apply H. rewrite Ea. reflexivity.
    + discriminate.
    + intros H. specialize (H [] (c :: a) eq_refl). simpl in H. congruence.
Qed.

(** * Pieces *)

Lemma piece_ext (P Q : text -> Prop) (r : regex) :
  (forall l, P l <-> Q l) -> piece P r -> piece Q r.
Proof.
  intros E H st st'. rewrite (H st st'). split; intros [l [Hl M]]; exists l;
    (split; [apply E; exact Hl | exact M]).
Qed.

Lemma moved_prefix (l r : text) (st : mstate) :
  rest st = l ++ r -> moved l st (advance (length l) st).
Proof.
  intros E. pose proof (moved_advance (length l) st) as M.
  replace (firstn (length l) (rest st)) with l in M; [exact M|].
  rewrite E, firstn_app, Nat.sub_diag, firstn_all. simpl.
  symmetry; apply app_nil_r.
Qed.

Lemma piece_Lit (t : text) : piece (eq t) (Lit t).
Proof.
  intros st st'. rewrite run_Lit. split.
  - destruct (starts_with t (rest st)) eqn:E; [|intros []].
    intros [<- | []]. apply starts_with_spec in E. destruct E as [r E].
    exists t. split; [reflexivity|]. split; [|reflexivity].
    eapply moved_prefix; exact E.
  - intros [l [<- [M C]]]. assert (E : starts_with t (rest st) = true).
    { apply starts_with_spec. exists (rest st'). apply M. }
    rewrite E. left. symmetry. apply moved_is_advance; assumption.
Qed.

Lemma moved_length (l : text) (st st' : mstate) :
  moved l st st' -> length l <= length (rest st).
Proof. intros [R _]. rewrite R, length_app. lia. Qed.

Lemma in_rep_class_text (lo : nat) (hi : option nat) (g : bool)
      (p : ascii -> bool) (st st' : mstate) :
  In st' (run (Rep lo hi g (Cls p)) st) <->
  exists l, (lo <= length l /\ length l <= lo + rounds lo hi (advance lo st)
             /\ all_in p l)
            /\ moved l st st' /\ caps st' = caps st.
Proof.
  rewrite in_run_rep_class. split.
  - intros [k [-> [H1 [H2 H3]]]]. exists (firstn k (rest st)).
    pose proof (span_len_le p (rest st)).
    rewrite length_firstn, Nat.min_l by lia.
    repeat split; try assumption.
    + apply span_len_firstn; exact H3.
    + apply moved_advance.
  - intros [l [[H1 [H2 H3]] [M C]]]. exists (length l).
    split; [apply moved_is_advance; assumption|].
    split; [exact H1|]. split; [exact H2|].
    destruct M as [R _]. rewrite R, span_len_app by exact H3. lia.
Qed.

Lemma piece_bounded (lo hi : nat) (g : bool) (p : ascii -> bool) :
  lo <= hi ->
  piece (fun l => lo <= length l /\ length l <= hi /\ all_in p l)
        (Rep lo (Some hi) g (Cls p)).
Proof.
  intros L st st'. rewrite in_rep_class_text. simpl rounds.
  split; intros [l [[H1 [H2 H3]] M]]; exists l; (split; [|exact M]);
    repeat split; try assumption; lia.
Qed.

Lemma piece_unbounded (lo : nat) (g : bool) (p : ascii -> bool) :
  piece (fun l => lo <= length l /\ all_in p l) (Rep lo None g (Cls p)).
Proof.
  intros st st'. rewrite in_rep_class_text. simpl rounds. rewrite length_skipn.
  split.
  - intros [l [[H1 [H2 H3]] M]]. exists l. repeat split; try assumption; apply M.
  - intros [l [[H1 H3] M]]. exists l. split; [|exact M].
    pose proof (moved_length l st st' (proj1 M)).
    repeat split; try assumption. lia.
Qed.

Lemma piece_Exactly (n : nat) (p : ascii -> bool) :
  piece (fun l => length l = n /\ all_in p l) (Exactly n (Cls p)).
Proof.
  apply piece_ext with (P := fun l => n <= length l /\ length l <= n /\ all_in p l).
  - intros l. split; [intros [H1 [H2 H3]] | intros [H1 H2]]; repeat split;
      try assumption; lia.
  - apply piece_bounded. lia.
Qed.

Lemma moved_split (l1 l2 : text) (st st' : mstate) :
  moved (l1 ++ l2) st st' ->
  moved l1 st (advance (length l1) st)
  /\ moved l2 (advance (length l1) st) st'.
Proof.
  intros [R S]. rewrite <- app_assoc in R.
  assert (F : firstn (length l1) (rest st) = l1).
  { rewrite R, firstn_app, Nat.sub_diag, firstn_all. simpl. apply app_nil_r. }
  split.
  - eapply moved_prefix; exact R.
  - split.
    + rewrite rest_advance, R, skipn_app, Nat.sub_diag, skipn_all. reflexivity.
    + simpl. rewrite F, S, rev_app_distr, app_assoc. reflexivity.
Qed.

Lemma piece_Cat (P1 P2 : text -> Prop) (r1 r2 : regex) :
  piece P1 r1 -> piece P2 r2 ->
  piece (fun l => exists l1 l2, l = l1 ++ l2 /\ P1 l1 /\ P2 l2) (Cat r1 r2).
Proof.
  intros H1 H2 st st'. cbn [run]. rewrite in_flat_map. split.
  - intros [mid [I1 I2]]. apply H1 in I1. apply H2 in I2.
    destruct I1 as [l1 [Q1 [M1 C1]]], I2 as [l2 [Q2 [M2 C2]]].
    exists (l1 ++ l2). split; [exists l1, l2; auto|].
    split; [eapply moved_trans; eassumption | congruence].
  - intros [l [[l1 [l2 [-> [Q1 Q2]]]] [M C]]].
    apply moved_split in M. destruct M as [M1 M2].
    exists (advance (length l1) st). split.
    + apply H1. exists l1. repeat split; try assumption; apply M1.
    + apply H2. exists l2. repeat split; try assumption; apply M2.
Qed.

Lemma piece_stamp : piece stamp (Seq stamp_pieces).
Proof.
  eapply piece_ext; [|cbn [Seq stamp_pieces];
    repeat (apply piece_Cat;
            [first [apply piece_Lit | apply piece_Exactly
                   | apply (piece_bounded 1 2 true is_digit); lia]|]);
    apply piece_Lit].
  intros l. unfold stamp, digits. split.
  - intros [? [? [-> [<- [? [? [-> [[E1 D1] [? [? [-> [<- [? [? [-> [[E2 D2]
      [? [? [-> [<- [? [? [-> [[E3 D3] [? [? [-> [<- [h [? [-> [[L1 [L2 D4]]
      [? [? [-> [<- [? [? [-> [[E5 D5] [? [? [-> [<- [? [? [-> [[E6 D6] <-]]]]]]]]]
      ]]]]]]]]]]]]]]]]]]]]]]]]]]]]]]]]]]]]]]].
    do 6 eexists. split; [reflexivity|].
    repeat split; try assumption.
    assert (length h = 1 \/ length h = 2) as [E|E] by lia;
      [left | right]; split; assumption.
  - intros [dd [mm [yy [h [mi [ap [-> [D1 [D2 [D3 [D4 [D5 [L6 D6]]]]]]]]]]]]].
    assert (D4' : 1 <= length h /\ length h <= 2 /\ all_in is_digit h).
    { destruct D4 as [[E D]|[E D]]; repeat split; try assumption; lia. }
    pose proof (conj L6 D6) as D6'.
    repeat first
      [ eexists; eexists; split; [reflexivity|]; split; [reflexivity|]
      | eexists; eexists; split; [reflexivity|]; split; [eassumption|] ].
    reflexivity.
Qed.

(** * The split of a line into sender and message *)

Lemma some_inj (A : Type) (a b : A) : Some a = Some b -> a = b.
Proof. intros E. injection E as E. exact E. Qed.

Lemma run_Grp (i : nat) (r : regex) (st : mstate) :
  run (Grp i r) st = map (set_cap i st) (run r st).
Proof. reflexivity. Qed.

Lemma run_unbounded_class (g : bool) (p : ascii -> bool) (st : mstate) :
  run (Rep 0 None g (Cls p)) st =
  map (fun k => advance k st)
      (if g then rev (seq 0 (S (span_len p (rest st))))
       else seq 0 (S (span_len p (rest st)))).
Proof.
  rewrite run_rep_class. unfold lengths, rounds. cbn [Nat.leb].
  rewrite rest_advance. cbn [skipn]. rewrite Nat.sub_0_r.
  pose proof (span_len_le p (rest st)).
  rewrite Nat.min_r by lia. reflexivity.
Qed.

Lemma map_seq_split (A : Type) (F : nat -> A) (l1 l2 : list A) (x : A)
      (a n : nat) :
  map F (seq a n) = l1 ++ x :: l2 ->
  x = F (a + length l1)
  /\ (forall j, j < length l1 -> In (F (a + j)) l1)
  /\ length l1 < n.
Proof.
  revert a n; induction l1 as [|y l1 IH]; intros a n E.
  - destruct n; [discriminate|]. simpl in E. injection E as E _.
    rewrite Nat.add_0_r. split; [congruence|]. split; [|simpl; lia].
    simpl. intros j Hj. lia.
  - destruct n; [discriminate|]. simpl in E. injection E as Ey E.
    destruct (IH _ _ E) as [Hx [Hin Hn]]. split; [|split].
    + rewrite Hx. f_equal. simpl. lia.
    + intros j Hj. destruct j.
      * left. rewrite Nat.add_0_r. congruence.
      * right. replace (a + S j) with (S a + j) by lia. apply Hin. simpl in Hj. lia.
    + simpl. lia.
Qed.

Lemma consumed_advance (k : nat) (st : mstate) :
  consumed st (advance k st) = firstn k (rest st).
Proof. apply consumed_moved, moved_advance. Qed.

Lemma run_star_nonempty (p : ascii -> bool) (y : mstate) :
  hd_error (run (Star (Cls p)) y) = Some (advance (span_len p (rest y)) y).
Proof.
  unfold Star. rewrite run_unbounded_class, seq_S, rev_app_distr. reflexivity.
Qed.

Lemma split_head (s h : mstate) :
  hd_error (run (Seq split_pieces) s) = Some h ->
  exists k,
    k <= span_len is_dot (rest s)
    /\ starts_with (txt ": ") (skipn k (rest s)) = true
    /\ (forall j, j < k -> starts_with (txt ": ") (skipn j (rest s)) = false)
    /\ caps h =
       (2, firstn (span_len is_dot (skipn (k + 2) (rest s)))
                  (skipn (k + 2) (rest s)))
       :: (1, firstn k (rest s)) :: caps s.
Proof.
  unfold split_pieces. rewrite run_Seq_cons. intros H.
  apply hd_flat_map in H. destruct H as [l1 [x [l2 [E [N Hh]]]]].
  rewrite run_Grp in E. unfold LazyStar in E.
  rewrite run_unbounded_class, map_map in E.
  apply map_seq_split in E. simpl in E. destruct E as [Ex [Hin Hk]].
  set (k := length l1) in *.
  assert (T : forall j, run (Seq [Lit (txt ": "); Grp 2 (Star (Cls is_dot))])
                            (set_cap 1 s (advance j s))
                        = if starts_with (txt ": ") (skipn j (rest s))
                          then map (set_cap 2 (advance 2 (set_cap 1 s (advance j s))))
                                   (run (Star (Cls is_dot))
                                        (advance 2 (set_cap 1 s (advance j s))))
                          else []).
  { intros j. rewrite run_Seq_cons, run_Lit. cbn [Seq].
    change (rest (set_cap 1 s (advance j s))) with (skipn j (rest s)).
    destruct (starts_with (txt ": ") (skipn j (rest s))); [|reflexivity].
    cbn [flat_map]. rewrite app_nil_r. apply run_Grp. }
  exists k. split; [lia|]. subst x. rewrite T in Hh.
  destruct (starts_with (txt ": ") (skipn k (rest s))) eqn:S1; [|discriminate].
  split; [reflexivity|]. split.
  - intros j Hj. specialize (N _ (Hin j Hj)). rewrite T in N.
    destruct (starts_with (txt ": ") (skipn j (rest s))); [|reflexivity].
    apply (f_equal (@hd_error _)) in N.
    rewrite hd_error_map, run_star_nonempty in N. discriminate.
  - set (y := advance 2 (set_cap 1 s (advance k s))) in *.
    assert (Ry : rest y = skipn (k + 2) (rest s)).
    { rewrite skipn_plus. reflexivity. }
    assert (Cy : caps y = (1, firstn k (rest s)) :: caps s).
    { unfold y. rewrite caps_advance. unfold set_cap. cbn [caps].
      rewrite consumed_advance, caps_advance. reflexivity. }
    rewrite hd_error_map, run_star_nonempty in Hh.
    cbn [option_map] in Hh. apply some_inj in Hh. rewrite <- Hh.
    unfold set_cap at 1. cbn [caps].
    rewrite consumed_advance, caps_advance, Ry, Cy. reflexivity.
Qed.

Lemma is_dot_false (x : ascii) : is_dot x = false -> x = LF.
Proof.
  unfold is_dot, is_code, code. intros H. apply negb_false_iff in H.
  apply Nat.eqb_eq in H. rewrite <- (ascii_nat_embedding x), H. reflexivity.
Qed.

Lemma skipn_app_length (A : Type) (a b : list A) : skipn (length a) (a ++ b) = b.
Proof. rewrite skipn_app, Nat.sub_diag, skipn_all. reflexivity. Qed.

Lemma split_text (s h : mstate) :
  hd_error (run (Seq split_pieces) s) = Some h ->
  exists who what eol,
    rest s = who ++ txt ": " ++ what ++ eol
    /\ caps h = (2, what) :: (1, who) :: caps s
    /\ all_in is_dot who /\ ~ occurs (txt ": ") who
    /\ all_in is_dot what /\ line_end eol.
Proof.
  intros H. apply split_head in H. destruct H as [k [Hk [S1 [N C]]]].
  pose proof (span_len_le is_dot (rest s)) as Hle.
  set (r := rest s) in *.
  apply starts_with_spec in S1. destruct S1 as [r2 E2].
  assert (E3 : skipn (k + 2) r = r2).
  { rewrite skipn_plus, E2. reflexivity. }
  rewrite E3 in C.
  exists (firstn k r), (firstn (span_len is_dot r2) r2),
         (skipn (span_len is_dot r2) r2).
  split; [|split; [exact C|]].
  - rewrite firstn_skipn, <- E2, firstn_skipn. reflexivity.
  - split; [apply span_len_firstn; exact Hk|]. split; [|split].
    + intros [a [b Eo]].
      assert (La : length a < k).
      { apply (f_equal (@length _)) in Eo.
        rewrite length_firstn, !length_app in Eo. simpl in Eo. lia. }
      specialize (N _ La).
      assert (Es : skipn (length a) r = txt ": " ++ b ++ skipn k r).
      { rewrite <- (firstn_skipn k r) at 1. rewrite Eo, <- !app_assoc.
        apply skipn_app_length. }
      rewrite Es, starts_with_app in N. discriminate.
    + apply span_len_firstn. lia.
    + pose proof (span_len_stop is_dot r2) as St.
      destruct (skipn (span_len is_dot r2) r2) as [|x t]; [left; reflexivity|].
      right. exists t. rewrite (is_dot_false x St). reflexivity.
Qed.

(** * The line pattern *)

Lemma line_re_pieces : line_re = Seq (stamp_pieces ++ split_pieces).
Proof. reflexivity. Qed.

Lemma line_match_shape (line : text) (m : rmatch) :
  re_search line_re line = Some m ->
  exists pre st eol,
    line = pre ++ st ++ group 1 m ++ txt ": " ++ group 2 m ++ eol
    /\ stamp st
    /\ all_in is_dot (group 1 m) /\ ~ occurs (txt ": ") (group 1 m)
    /\ all_in is_dot (group 2 m) /\ line_end eol.
Proof.
  unfold re_search. intros H. apply search_from_some in H.
  destruct H as [a1 [a2 [-> [F [Hd _]]]]].
  rewrite line_re_pieces, run_Seq_app in Hd.
  apply hd_flat_map in Hd. destruct Hd as [l1 [x [l2 [E [_ Hh]]]]].
  assert (I : In x (run (Seq stamp_pieces) (m_from m))).
  { rewrite E. apply in_or_app. right. left. reflexivity. }
  apply piece_stamp in I. destruct I as [st [Hst [[R _] C]]].
  apply split_text in Hh.
  destruct Hh as [who [what [eol [Er [Ec [D1 [N [D2 Le]]]]]]]].
  rewrite F in R, C. simpl in R, C.
  unfold group. rewrite Ec. cbn [lookup_cap Nat.eqb].
  exists a1, st, eol. rewrite R, Er.
  repeat split; assumption.
Qed.

Lemma line_shape_matches (pre st who tail : text) :
  stamp st -> all_in is_dot who ->
  re_search line_re (pre ++ st ++ who ++ txt ": " ++ tail) <> None.
Proof.
  intros Hst Hw H. unfold re_search in H.
  pose proof (proj1 (search_from_none _ _ _) H pre _ eq_refl) as N.
  rewrite app_nil_r in N.
  set (s0 := MState (rev pre) (st ++ who ++ txt ": " ++ tail) []) in *.
  assert (I : In (set_cap 2 (advance 2 (set_cap 1 (advance (length st) s0)
                                  (advance (length who) (advance (length st) s0))))
                    (advance 0 (advance 2 (set_cap 1 (advance (length st) s0)
                                  (advance (length who) (advance (length st) s0))))))
                 (run line_re s0)); [|rewrite N in I; destruct I].
  rewrite line_re_pieces, run_Seq_app. apply in_flat_map.
  exists (advance (length st) s0). split.
  - apply piece_stamp. exists st. split; [exact Hst|]. split; [|reflexivity].
    eapply moved_prefix. reflexivity.
  - set (s1 := advance (length st) s0).
    assert (R1 : rest s1 = who ++ txt ": " ++ tail).
    { unfold s1. rewrite rest_advance. apply skipn_app_length. }
    unfold split_pieces. rewrite run_Seq_cons. apply in_flat_map.
    exists (set_cap 1 s1 (advance (length who) s1)). split.
    + rewrite run_Grp. apply in_map. unfold LazyStar.
      apply in_run_rep_class. exists (length who).
      split; [reflexivity|]. split; [lia|]. split.
      * unfold rounds. rewrite rest_advance. cbn [skipn]. rewrite R1, length_app. lia.
      * rewrite R1, span_len_app by exact Hw. lia.
    + rewrite run_Seq_cons. apply in_flat_map.
      exists (advance 2 (set_cap 1 s1 (advance (length who) s1))). split.
      * rewrite run_Lit.
        change (rest (set_cap 1 s1 (advance (length who) s1)))
          with (skipn (length who) (rest s1)).
        rewrite R1, skipn_app_length, starts_with_app. left. reflexivity.
      * cbn [Seq]. rewrite run_Grp. apply in_map. unfold Star.
        apply in_run_rep_class. exists 0.
        split; [reflexivity|]. repeat split; lia.
Qed.

(** * The phone pattern *)

Lemma piece_Opt (p : ascii -> bool) :
  piece (fun l => length l <= 1 /\ all_in p l) (Opt (Cls p)).
Proof.
  apply piece_ext with (P := fun l => 0 <= length l /\ length l <= 1 /\ all_in p l).
  - intros l. split; [intros [_ H]; exact H | intros H; split; [lia | exact H]].
  - apply piece_bounded. lia.
Qed.

Lemma piece_phone_digits : piece phone_shape (Seq phone_digits).
Proof.
  eapply piece_ext; [|cbn [Seq phone_digits];
    repeat (apply piece_Cat; [first [apply piece_Exactly | apply piece_Opt]|]);
    apply piece_Exactly].
  intros l. unfold phone_shape, separator, digits. split.
  - intros [a [? [-> [Da [s1 [? [-> [S1 [b [? [-> [Db [s2 [c [-> [S2 Dc]]]]]]]]]]]]]]]].
    exists a, s1, b, s2, c. repeat split; try tauto.
  - intros [a [s1 [b [s2 [c [-> [Da [S1 [Db [S2 Dc]]]]]]]]]].
    repeat (eexists; eexists; split; [reflexivity|]; split; [eassumption|]).
    exact Dc.
Qed.

Lemma phone_re_pieces : phone_re = Seq ([WordB] ++ phone_digits ++ [WordB]).
Proof. reflexivity. Qed.

Lemma run_WordB (st : mstate) : run WordB st = if edge st then [st] else [].
Proof. reflexivity. Qed.

Lemma in_run_phone (st h : mstate) :
  In h (run phone_re st) <->
  exists l, phone_shape l /\ moved l st h /\ caps h = caps st
            /\ edge st = true /\ edge h = true.
Proof.
  rewrite phone_re_pieces, run_Seq_app. cbn [Seq]. rewrite run_WordB.
  destruct (edge st) eqn:E.
  - cbn [flat_map]. rewrite app_nil_r, run_Seq_app. cbn [Seq]. split.
    + rewrite in_flat_map.
      intros [x [I1 I2]]. rewrite run_WordB in I2.
      destruct (edge x) eqn:Ex; [|destruct I2]. destruct I2 as [<- | []].
      apply piece_phone_digits in I1. destruct I1 as [l [P [M C]]].
      exists l. repeat split; try assumption; apply M.
    + intros [l [P [M [C [E1 E2]]]]].
      apply in_flat_map. exists h. split.
      * apply piece_phone_digits. exists l. repeat split; try assumption; apply M.
      * rewrite run_WordB, E2. left. reflexivity.
  - cbn [flat_map]. split; [intros [] | intros [l [_ [_ [_ [E1 _]]]]]; discriminate].
Qed.

Lemma edge_at_pos (a b : text) :
  edge (at_pos a b) = xorb (ends_in_word a) (starts_in_word b).
Proof. reflexivity. Qed.

Lemma moved_at_pos (l a b : text) (h : mstate) :
  moved l (at_pos a b) h -> caps h = [] ->
  exists b', b = l ++ b' /\ h = at_pos (a ++ l) b'.
Proof.
  destruct h as [hs hr hc]. intros [R S] C. simpl in *. exists hr.
  split; [exact R|]. unfold at_pos. rewrite rev_app_distr. congruence.
Qed.

Lemma phone_at_in_run (msg a p b : text) :
  phone_at msg a p b <->
  msg = a ++ p ++ b /\ In (at_pos (a ++ p) b) (run phone_re (at_pos a (p ++ b))).
Proof.
  unfold phone_at, word_boundary. rewrite in_run_phone, !edge_at_pos. split.
  - intros [E [P [B1 B2]]]. split; [exact E|]. exists p.
    repeat split; try assumption. simpl. apply rev_app_distr.
  - intros [E [l [P [M [C [B1 B2]]]]]].
    destruct (moved_at_pos _ _ _ _ M C) as [b' [Eb Eh]].
    assert (L : a ++ l = a ++ p /\ b' = b).
    { unfold at_pos in Eh. injection Eh as Er Eb'.
      apply (f_equal (@rev _)) in Er. rewrite !rev_involutive in Er.
      split; congruence. }
    destruct L as [L1 L2]. apply app_inv_head in L1. subst l b'.
    repeat split; assumption.
Qed.

(** The digits and the separators are disjoint, so the pattern reads a
    text in one way only. *)
Lemma sep_not_digit (c : ascii) : is_sep c = true -> is_digit c = false.
Proof.
  each_char c; vm_compute; congruence.
Qed.

Lemma all_in_cons (p : ascii -> bool) (x : ascii) (l : text) :
  all_in p (x :: l) <-> p x = true /\ all_in p l.
Proof. unfold all_in. simpl. apply andb_true_iff. Qed.

Lemma separator_cases (s : text) :
  separator s -> s = [] \/ exists c, s = [c] /\ is_sep c = true.
Proof.
  intros [L A]. destruct s as [|c [|d s]]; simpl in L; [left; reflexivity | | lia].
  right. exists c. split; [reflexivity|]. apply all_in_cons in A. apply A.
Qed.

Lemma digits_cons (n : nat) (l : text) :
  digits (S n) l -> exists x l', l = x :: l' /\ is_digit x = true /\ digits n l'.
Proof.
  intros [L A]. destruct l as [|x l]; [discriminate|].
  apply all_in_cons in A. exists x, l. split; [reflexivity|].
  split; [apply A|]. split; [simpl in L; lia | apply A].
Qed.

Lemma app_same_length (A : Type) (l l' r r' : list A) :
  length l = length l' -> l ++ r = l' ++ r' -> l = l' /\ r = r'.
Proof.
  revert l'; induction l as [|x l IH]; intros [|x' l'] L E; try discriminate.
  - split; [reflexivity | exact E].
  - simpl in L, E. injection E as -> E. injection L as L.
    destruct (IH _ L E) as [-> ->]. split; reflexivity.
Qed.

Lemma digits_same_length (n : nat) (l l' r r' : text) :
  digits n l -> digits n l' -> l ++ r = l' ++ r' -> l = l' /\ r = r'.
Proof. intros [L _] [L' _]. apply app_same_length. congruence. Qed.

Lemma separator_then_digit (s s' r r' : text) (n : nat) :
  separator s -> separator s' ->
  (exists d t, r = d ++ t /\ digits (S n) d) ->
  (exists d t, r' = d ++ t /\ digits (S n) d) ->
  s ++ r = s' ++ r' -> s = s' /\ r = r'.
Proof.
  intros S1 S2 [d [t [-> D]]] [d' [t' [-> D']]] E.
  apply digits_cons in D. destruct D as [x [l [-> [Dx _]]]].
  apply digits_cons in D'. destruct D' as [x' [l' [-> [Dx' _]]]].
  apply separator_cases in S1. apply separator_cases in S2.
  destruct S1 as [-> | [c [-> Sc]]], S2 as [-> | [c' [-> Sc']]]; simpl in E.
  - split; [reflexivity | exact E].
  - injection E as -> _. apply sep_not_digit in Sc'. congruence.
  - injection E as <- _. apply sep_not_digit in Sc. congruence.
  - injection E as -> -> E. split; [reflexivity|]. simpl. rewrite E. reflexivity.
Qed.

Lemma phone_shape_one_way (p p' r r' : text) :
  phone_shape p -> phone_shape p' -> p ++ r = p' ++ r' -> p = p'.
Proof.
  intros [a [s1 [b [s2 [c [-> [Da [S1 [Db [S2 Dc]]]]]]]]]]
         [a' [s1' [b' [s2' [c' [-> [Da' [S1' [Db' [S2' Dc']]]]]]]]]] E.
  rewrite <- !app_assoc in E.
  destruct (digits_same_length _ _ _ _ _ Da Da' E) as [-> E1].
  apply separator_then_digit with (n := 2) in E1; try assumption;
    [|eexists; eexists; split; [reflexivity | eassumption] ..].
  destruct E1 as [-> E2].
  destruct (digits_same_length _ _ _ _ _ Db Db' E2) as [-> E3].
  apply separator_then_digit with (n := 3) in E3; try assumption;
    [|eexists; eexists; split; [reflexivity | eassumption] ..].
  destruct E3 as [-> E4].
  destruct (digits_same_length _ _ _ _ _ Dc Dc' E4) as [-> _]. reflexivity.
Qed.

(** * [re.findall] and the first match *)

Lemma findall_first (r : regex) (s : text) :
  match re_findall r s with
  | p :: _ => Some p
  | [] => None
  end = option_map group0 (re_search r s).
Proof.
  unfold re_findall, re_search. cbn [findall_from].
  destruct (search_from r [] s); reflexivity.
Qed.

(** The first phone number of a message: where [re.search] finds it, what
    it is, and that no occurrence starts before it. *)
Lemma phone_search_some (msg : text) (m : rmatch) :
  re_search phone_re msg = Some m ->
  exists a b,
    phone_at msg a (group0 m) b
    /\ forall a' p' b', phone_at msg a' p' b' ->
                        length a <= length a'
                        /\ (length a' = length a -> p' = group0 m).
Proof.
  unfold re_search. intros H. apply search_from_some in H.
  destruct H as [a [r [E [F [Hd N]]]]]. rewrite app_nil_r in F.
  apply hd_error_in in Hd. rewrite F in Hd. fold (at_pos a r) in Hd.
  pose proof Hd as I. apply in_run_phone in I.
  destruct I as [l [P [M [C [_ _]]]]].
  destruct (moved_at_pos _ _ _ _ M C) as [b [-> Eh]].
  assert (G : group0 m = l).
  { unfold group0. apply consumed_moved. rewrite F. exact M. }
  rewrite G. exists a, b. split.
  - apply phone_at_in_run. split; [exact E|]. rewrite <- Eh. exact Hd.
  - intros a' p' b' Q. pose proof Q as [E' [P' _]].
    apply phone_at_in_run in Q. destruct Q as [_ I'].
    assert (L : length a <= length a').
    { destruct (Nat.lt_ge_cases (length a') (length a)) as [Lt|Ge]; [|exact Ge].
      specialize (N a' (p' ++ b')). rewrite app_nil_r in N.
      unfold at_pos in I'. rewrite N in I'; [destruct I' | congruence | exact Lt]. }
    split; [exact L|]. intros La.
    assert (Ea : a' = a /\ p' ++ b' = l ++ b).
    { apply app_same_length; [exact La | congruence]. }
    destruct Ea as [_ Ep]. eapply phone_shape_one_way; eassumption.
Qed.

Lemma phone_search_none (msg : text) :
  re_search phone_re msg = None -> forall a p b, ~ phone_at msg a p b.
Proof.
  unfold re_search. intros H a p b Q.
  apply phone_at_in_run in Q. destruct Q as [E I].
  pose proof (proj1 (search_from_none _ _ _) H a (p ++ b) E) as N.
  rewrite app_nil_r in N. unfold at_pos in I. rewrite N in I. destruct I.
Qed.

(** * The business pattern: what it matches *)

Lemma piece_Cls (p : ascii -> bool) :
  piece (fun l => exists x, l = [x] /\ p x = true) (Cls p).
Proof.
  intros st st'. change (run (Cls p) st) with (step_class p st).
  rewrite step_class_eq. split.
  - destruct (Nat.leb_spec 1 (span_len p (rest st))) as [H|H]; [|intros []].
    intros [<- | []]. destruct (rest st) as [|x t] eqn:E; [simpl in H; lia|].
    simpl in H. destruct (p x) eqn:Px; [|lia].
    exists [x]. split; [exists x; auto|]. split; [|reflexivity].
    apply (moved_prefix [x] t). exact E.
  - intros [l [[x [-> Px]] [M C]]].
    assert (E : rest st = x :: rest st') by apply M.
    rewrite E. simpl. rewrite Px. simpl. left. symmetry.
    apply (moved_is_advance [x]); assumption.
Qed.

Lemma piece_Plus (p : ascii -> bool) :
  piece (fun l => 1 <= length l /\ all_in p l) (Plus (Cls p)).
Proof. apply piece_unbounded. Qed.

Lemma piece_cap_word :
  piece cap_word (Cat (Cls is_upper) (Plus (Cls is_lower))).
Proof.
  eapply piece_ext; [|apply piece_Cat; [apply piece_Cls | apply piece_Plus]].
  intros l. unfold cap_word. split.
  - intros [? [ls [-> [[u [-> U]] [L A]]]]]. exists u, ls. auto.
  - intros [u [ls [-> [U [L A]]]]]. exists [u], ls.
    split; [reflexivity|]. split; [exists u; auto | auto].
Qed.

Lemma piece_business_body : piece spaced_word business_body.
Proof.
  eapply piece_ext; [|apply piece_Cat; [apply piece_Cls | apply piece_cap_word]].
  intros l. unfold spaced_word. split.
  - intros [? [w [-> [[sp [-> S]] W]]]]. exists sp, w. auto.
  - intros [sp [w [-> [S W]]]]. exists [sp], w.
    split; [reflexivity|]. split; [exists sp; auto | auto].
Qed.

Lemma in_upto (P : text -> Prop) (r : regex) (g : bool) :
  piece P r ->
  forall n st st',
    In st' (upto (run r) g n st) <->
    exists ls, length ls <= n /\ Forall P ls
               /\ moved (concat ls) st st' /\ caps st' = caps st.
Proof.
  intros HP. induction n as [|n IH]; intros st st'.
  - simpl. split.
    + intros [<- | []]. exists []. repeat split; auto.
    + intros [ls [L [_ [M C]]]]. destruct ls; [|simpl in L; lia].
      left. symmetry. rewrite <- (advance_0 st).
      apply (moved_is_advance []); assumption.
  - assert (Q : In st' (upto (run r) g (S n) st) <->
                st' = st \/ In st' (flat_map (upto (run r) g n) (run r st))).
    { simpl. destruct g; [rewrite in_app_iff|]; simpl; intuition congruence. }
    rewrite Q, in_flat_map. split.
    + intros [-> | [x [I1 I2]]].
      * exists []. repeat split; auto. simpl; lia.
      * apply HP in I1. apply IH in I2.
        destruct I1 as [l1 [P1 [M1 C1]]], I2 as [ls [L [F [M C]]]].
        exists (l1 :: ls). split; [simpl; lia|]. split; [constructor; assumption|].
        split; [simpl; eapply moved_trans; eassumption | congruence].
    + intros [ls [L [F [M C]]]]. destruct ls as [|l1 ls].
      * left. rewrite <- (advance_0 st). apply (moved_is_advance []); assumption.
      * right. simpl in M. apply moved_split in M. destruct M as [M1 M2].
        inversion F as [|? ? P1 F']; subst.
        exists (advance (length l1) st). split.
        -- apply HP. exists l1. repeat split; try assumption; apply M1.
        -- apply IH. exists ls. simpl in L. repeat split; try assumption;
             try apply M2; lia.
Qed.

Lemma concat_length_le (P : text -> Prop) (ls : list text) :
  (forall l, P l -> l <> []) -> Forall P ls -> length ls <= length (concat ls).
Proof.
  intros NE F. induction F as [|l ls Pl F IH]; simpl; [lia|].
  rewrite length_app. specialize (NE l Pl). destruct l; [congruence | simpl; lia].
Qed.

Lemma run_Star (r : regex) (st : mstate) :
  run (Star r) st = upto (run r) true (length (rest st)) st.
Proof. simpl. apply app_nil_r. Qed.

Lemma piece_Star (P : text -> Prop) (r : regex) :
  piece P r -> (forall l, P l -> l <> []) ->
  piece (fun l => exists ls, l = concat ls /\ Forall P ls) (Star r).
Proof.
  intros HP NE st st'. rewrite run_Star, (in_upto P r true HP). split.
  - intros [ls [_ [F M]]]. exists (concat ls). split; [exists ls; auto | exact M].
  - intros [l [[ls [-> F]] [M C]]]. exists ls. repeat split; try assumption;
      try apply M.
    pose proof (concat_length_le P ls NE F).
    pose proof (moved_length _ _ _ M). lia.
Qed.

Lemma spaced_word_nonempty (l : text) : spaced_word l -> l <> [].
Proof. intros [sp [w [-> _]]]. discriminate. Qed.

Lemma piece_business_words : piece cap_run business_words.
Proof.
  unfold business_words.
  change (Seq [Cls is_upper; Plus (Cls is_lower); Star business_body])
    with (Cat (Cls is_upper) (Cat (Plus (Cls is_lower)) (Star business_body))).
  intros st st'. cbn [run]. rewrite in_flat_map. split.
  - intros [x [I1 I2]]. apply in_flat_map in I2. destruct I2 as [y [I2 I3]].
    assert (Iw : In y (run (Cat (Cls is_upper) (Plus (Cls is_lower))) st)).
    { cbn [run]. apply in_flat_map. exists x. auto. }
    apply piece_cap_word in Iw. destruct Iw as [w [W [M1 C1]]].
    apply (piece_Star spaced_word business_body piece_business_body
             spaced_word_nonempty) in I3.
    destruct I3 as [l [[ls [-> F]] [M2 C2]]].
    exists (w ++ concat ls). split; [exists w, ls; auto|].
    split; [eapply moved_trans; eassumption | congruence].
  - intros [l [[w [ls [-> [W F]]]] [M C]]].
    apply moved_split in M. destruct M as [M1 M2].
    assert (Iw : In (advance (length w) st)
                    (run (Cat (Cls is_upper) (Plus (Cls is_lower))) st)).
    { apply piece_cap_word. exists w. repeat split; try assumption; apply M1. }
    cbn [run] in Iw. apply in_flat_map in Iw. destruct Iw as [x [I1 I2]].
    exists x. split; [exact I1|]. apply in_flat_map.
    exists (advance (length w) st). split; [exact I2|].
    apply (piece_Star spaced_word business_body piece_business_body
             spaced_word_nonempty).
    exists (concat ls). split; [exists ls; auto|].
    repeat split; try assumption; apply M2.
Qed.

(** * The business pattern: the match the greedy repetitions prefer *)

Lemma upto_nonempty (step : mstate -> list mstate) (g : bool) (n : nat)
      (st : mstate) :
  upto step g n st <> [].
Proof.
  destruct n; simpl; [discriminate|]. destruct g; [|discriminate].
  intros E. apply app_eq_nil in E. destruct E as [_ E]. discriminate.
Qed.

Lemma hd_flat_map_total (A B : Type) (f : A -> list B) (l : list A) (h : B) :
  (forall x, f x <> []) ->
  hd_error (flat_map f l) = Some h ->
  exists x, hd_error l = Some x /\ hd_error (f x) = Some h.
Proof.
  intros T H. destruct l as [|x l]; [discriminate|]. exists x.
  split; [reflexivity|]. simpl in H. specialize (T x).
  destruct (f x) as [|y t]; [congruence | exact H].
Qed.

(** A greedy repetition stops where one more round is impossible. *)
Lemma upto_greedy_hd (r : regex) :
  (forall st x, In x (run r st) -> length (rest x) < length (rest st)) ->
  forall n st h,
    length (rest st) <= n ->
    hd_error (upto (run r) true n st) = Some h ->
    run r h = []
    /\ (h = st \/ exists st', hd_error (run r st') = Some h).
Proof.
  intros Hc. induction n as [|n IH]; intros st h L H.
  - simpl in H. injection H as <-. split; [|left; reflexivity].
    destruct (run r st) as [|x t] eqn:E; [reflexivity|].
    specialize (Hc st x). rewrite E in Hc. specialize (Hc (or_introl eq_refl)). lia.
  - simpl in H. destruct (run r st) as [|x t] eqn:E.
    + simpl in H. injection H as <-. split; [exact E | left; reflexivity].
    + simpl in H. pose proof (upto_nonempty (run r) true n x) as NE.
      destruct (upto (run r) true n x) as [|y t'] eqn:Eu; [congruence|].
      simpl in H. injection H as <-.
      assert (Lx : length (rest x) <= n).
      { specialize (Hc st x). rewrite E in Hc. specialize (Hc (or_introl eq_refl)). lia. }
      destruct (IH x y Lx) as [N [-> | [st' Hs]]]; [rewrite Eu; reflexivity | |].
      * split; [exact N|]. right. exists st. rewrite E. reflexivity.
      * split; [exact N|]. right. exists st'. exact Hs.
Qed.

Lemma run_plus_stops (p : ascii -> bool) (x h : mstate) :
  hd_error (run (Plus (Cls p)) x) = Some h ->
  match rest h with
  | c :: _ => p c = false
  | [] => True
  end.
Proof.
  unfold Plus. rewrite run_rep_class. unfold lengths, rounds.
  destruct (Nat.leb_spec 1 (span_len p (rest x))) as [H|H]; [|discriminate].
  rewrite rest_advance, length_skipn.
  pose proof (span_len_le p (rest x)).
  rewrite Nat.min_r by lia. rewrite seq_S, rev_app_distr.
  replace (1 + (span_len p (rest x) - 1)) with (span_len p (rest x)) by lia.
  cbn [rev app map hd_error].
  intros E. apply some_inj in E. subst h. rewrite rest_advance.
  apply span_len_stop.
Qed.

Lemma consuming_body (st x : mstate) :
  In x (run business_body st) -> length (rest x) < length (rest st).
Proof.
  intros I. apply piece_business_body in I.
  destruct I as [l [[sp [w [-> _]]] [[R _] _]]].
  rewrite R. simpl. rewrite length_app. lia.
Qed.

Lemma body_hd_ends (st h : mstate) :
  hd_error (run business_body st) = Some h -> word_ends h.
Proof.
  unfold business_body.
  change (Seq [Cls is_space; Cls is_upper; Plus (Cls is_lower)])
    with (Cat (Cls is_space) (Cat (Cls is_upper) (Plus (Cls is_lower)))).
  cbn [run]. intros H.
  apply hd_flat_map in H. destruct H as [_ [x [_ [_ [_ H]]]]].
  apply hd_flat_map in H. destruct H as [_ [y [_ [_ [_ H]]]]].
  apply run_plus_stops in H. exact H.
Qed.

Lemma run_Star_nonempty (r : regex) (st : mstate) : run (Star r) st <> [].
Proof. rewrite run_Star. apply upto_nonempty. Qed.

(** Where the preferred match of the words ends, the word cannot go on and
    no further spaced word follows. *)
Lemma business_words_hd (st h : mstate) :
  hd_error (run business_words st) = Some h ->
  word_ends h /\ run business_body h = [].
Proof.
  unfold business_words.
  change (Seq [Cls is_upper; Plus (Cls is_lower); Star business_body])
    with (Cat (Cls is_upper) (Cat (Plus (Cls is_lower)) (Star business_body))).
  cbn [run]. intros H.
  apply hd_flat_map in H. destruct H as [_ [x [_ [_ [_ H]]]]].
  apply hd_flat_map_total in H; [|apply run_Star_nonempty].
  destruct H as [y [Hy H]]. apply run_plus_stops in Hy.
  rewrite run_Star in H.
  apply (upto_greedy_hd business_body consuming_body) in H; [|lia].
  destruct H as [N [-> | [st' Hs]]].
  - split; [exact Hy | exact N].
  - split; [eapply body_hd_ends; exact Hs | exact N].
Qed.

(** * Two runs of capitalised words read from the same place *)

Lemma space_not_lower (c : ascii) : is_space c = true -> is_lower c = false.
Proof.
  each_char c; vm_compute; congruence.
Qed.

Lemma all_in_app (p : ascii -> bool) (l1 l2 : text) :
  all_in p (l1 ++ l2) <-> all_in p l1 /\ all_in p l2.
Proof. unfold all_in. rewrite forallb_app. apply andb_true_iff. Qed.

Lemma cap_word_tail_lower (w w' t : text) (z : ascii) :
  cap_word w -> cap_word w' -> w = w' ++ z :: t -> is_lower z = true.
Proof.
  intros [u [ls [-> [_ [_ A]]]]] [u' [ls' [-> _]]] E.
  simpl in E. injection E as _ ->.
  apply all_in_app in A. destruct A as [_ A]. apply all_in_cons in A. apply A.
Qed.

Lemma word_prefix_cmp (w w' X Y : text) :
  cap_word w -> cap_word w' -> w ++ Y = w' ++ X ->
  (w = w' /\ Y = X)
  \/ (exists z t, w' = w ++ z :: t /\ is_lower z = true /\ Y = z :: t ++ X)
  \/ (exists z t, w = w' ++ z :: t /\ is_lower z = true /\ X = z :: t ++ Y).
Proof.
  intros W W' E. apply app_eq_app in E.
  destruct E as [t [[E1 E2] | [E1 E2]]]; destruct t as [|z t].
  - left. rewrite app_nil_r in E1. simpl in E2. auto.
  - right. right. exists z, t. split; [exact E1|]. split; [|exact E2].
    exact (cap_word_tail_lower w w' t z W W' E1).
  - left. rewrite app_nil_r in E1. simpl in E2. auto.
  - right. left. exists z, t. split; [exact E1|]. split; [|exact E2].
    exact (cap_word_tail_lower w' w t z W' W E1).
Qed.

Lemma cap_run_longer (bs : list text) :
  forall w w' bs' rc rp,
    cap_word w -> cap_word w' ->
    Forall spaced_word bs -> Forall spaced_word bs' ->
    (w ++ concat bs) ++ rc = (w' ++ concat bs') ++ rp ->
    length (w ++ concat bs) < length (w' ++ concat bs') ->
    (exists x t, rc = x :: t /\ is_lower x = true)
    \/ (exists lb tail, rc = lb ++ tail /\ spaced_word lb).
Proof.
  induction bs as [|b bs IH]; intros w w' bs' rc rp W W' F F' E L;
    rewrite <- !app_assoc in E;
    destruct (word_prefix_cmp _ _ _ _ W W' E)
      as [[-> EY] | [[z [t [Ew [Lz EY]]]] | [z [t [Ew [Lz EX]]]]]].
  - simpl in EY. subst rc. destruct bs' as [|b' bs'].
    + simpl in L. lia.
    + right. exists b', (concat bs' ++ rp). split.
      * simpl. rewrite app_assoc. reflexivity.
      * inversion F'; assumption.
  - simpl in EY. left. exists z, (t ++ concat bs' ++ rp). auto.
  - destruct bs' as [|b' bs'].
    + subst w. simpl in L. rewrite !app_nil_r, length_app in L. simpl in L. lia.
    + inversion F' as [|? ? [sp [v [-> [S _]]]] _]; subst.
      simpl in EX. injection EX as <- _.
      apply space_not_lower in S. congruence.
  - inversion F as [|? ? [sp [v [-> [S V]]]] Fb]; subst.
    destruct bs' as [|b' bs'].
    + simpl in L. rewrite app_nil_r, !length_app in L. lia.
    + inversion F' as [|? ? [sp' [v' [-> [S' V']]]] Fb']; subst.
      simpl in EY. rewrite <- !app_assoc in EY. injection EY as _ EY.
      apply (IH v v' bs' rc rp); try assumption.
      * rewrite <- !app_assoc. exact EY.
      * simpl in L. rewrite !length_app in *. simpl in L.
        rewrite !length_app in L. lia.
  - inversion F as [|? ? [sp [v [-> [S V]]]] Fb]; subst.
    simpl in EY. injection EY as <- _.
    apply space_not_lower in S. congruence.
  - destruct bs' as [|b' bs'].
    + subst w. simpl in L. rewrite app_nil_r, !length_app in L. simpl in L. lia.
    + inversion F' as [|? ? [sp [v [-> [S _]]]] _]; subst.
      simpl in EX. injection EX as <- _.
      apply space_not_lower in S. congruence.
Qed.

Lemma cap_run_extends (c p rc rp : text) :
  cap_run c -> cap_run p -> c ++ rc = p ++ rp -> length c < length p ->
  (exists x t, rc = x :: t /\ is_lower x = true)
  \/ (exists lb tail, rc = lb ++ tail /\ spaced_word lb).
Proof.
  intros [w [bs [-> [W F]]]] [w' [bs' [-> [W' F']]]].
  apply cap_run_longer; assumption.
Qed.

Lemma business_re_words : business_re = Grp 1 business_words.
Proof. reflexivity. Qed.

Lemma cap_run_matches (a b c : text) :
  cap_run b -> run business_re (MState (rev a ++ []) (b ++ c) []) <> [].
Proof.
  intros Hb E. rewrite business_re_words, run_Grp in E.
  apply map_eq_nil in E.
  assert (I : In (advance (length b) (MState (rev a ++ []) (b ++ c) []))
                 (run business_words (MState (rev a ++ []) (b ++ c) []))).
  { apply piece_business_words. exists b. split; [exact Hb|].
    split; [|reflexivity]. apply (moved_prefix b c). reflexivity. }
  rewrite E in I. destruct I.
Qed.

(** The first run of capitalised words of a message: where [re.search]
    finds it, that no run starts before it, and that no run from the same
    place is longer. *)
Lemma business_search_some (msg : text) (m : rmatch) :
  re_search business_re msg = Some m ->
  exists a c,
    msg = a ++ group0 m ++ c /\ cap_run (group0 m)
    /\ forall a' b' c', msg = a' ++ b' ++ c' -> cap_run b' ->
                        length a <= length a'
                        /\ (length a' = length a ->
                            length b' <= length (group0 m)).
Proof.
  unfold re_search. intros H. apply search_from_some in H.
  destruct H as [a [r [E [F [Hd N]]]]].
  rewrite business_re_words, run_Grp, hd_error_map in Hd.
  destruct (hd_error (run business_words (m_from m))) as [h|] eqn:Hh;
    [|discriminate].
  simpl in Hd. apply some_inj in Hd.
  pose proof (hd_error_in _ _ _ Hh) as I.
  apply piece_business_words in I. destruct I as [l [Hl [M C]]].
  apply business_words_hd in Hh. destruct Hh as [We Nb].
  assert (G : group0 m = l).
  { unfold group0, consumed. rewrite <- Hd. cbn [set_cap seen].
    apply (consumed_moved l). exact M. }
  assert (R : r = l ++ rest h).
  { destruct M as [R _]. rewrite F in R. exact R. }
  rewrite G. exists a, (rest h). split; [congruence|]. split; [exact Hl|].
  intros a' b' c' E' Hb'.
  assert (L : length a <= length a').
  { destruct (Nat.lt_ge_cases (length a') (length a)) as [Lt|Ge]; [|exact Ge].
    exfalso. apply (cap_run_matches a' b' c' Hb').
    apply N; [congruence | exact Lt]. }
  split; [exact L|]. intros La.
  destruct (Nat.lt_ge_cases (length l) (length b')) as [Lt|Ge]; [|exact Ge].
  exfalso.
  assert (Ea : a' = a /\ b' ++ c' = l ++ rest h).
  { apply app_same_length; [exact La | congruence]. }
  destruct Ea as [_ Eb]. symmetry in Eb.
  destruct (cap_run_extends l b' (rest h) c' Hl Hb' Eb Lt)
    as [[x [t [Ex Lx]]] | [lb [tail [Ex Sb]]]].
  - unfold word_ends in We. rewrite Ex in We. congruence.
  - assert (I : In (advance (length lb) h) (run business_body h)).
    { apply piece_business_body. exists lb. split; [exact Sb|].
      split; [|reflexivity]. apply (moved_prefix lb tail). exact Ex. }
    rewrite Nb in I. destruct I.
Qed.

Lemma business_search_none (msg : text) :
  re_search business_re msg = None ->
  forall a b c, msg = a ++ b ++ c -> ~ cap_run b.
Proof.
  unfold re_search. intros H a b c E Hb.
  apply (cap_run_matches a b c Hb).
  apply (proj1 (search_from_none _ _ _) H a (b ++ c) E).
Qed.

(** * The extractor *)

Lemma extract_lines_acc (lines : list text) (acc : list referral) :
  fold_left
    (fun referrals line =>
       match extract_line line with
       | Some r => referrals ++ [r]
       | None => referrals
       end) lines acc
  = acc ++ flat_map (fun line => match extract_line line with
                                 | Some r => [r]
                                 | None => []
                                 end) lines.
Proof.
  revert acc; induction lines as [|l lines IH]; intros acc; simpl.
  - symmetry; apply app_nil_r.
  - rewrite IH. destruct (extract_line l); simpl.
    + rewrite <- app_assoc. reflexivity.
    + reflexivity.
Qed.

Lemma extract_lines_spec (lines : list text) (r : referral) :
  In r (extract_lines lines) <->
  exists line, In line lines /\ extract_line line = Some r.
Proof.
  unfold extract_lines. rewrite extract_lines_acc. simpl. rewrite in_flat_map.
  split; intros [line [I H]]; exists line; (split; [exact I|]).
  - destruct (extract_line line) as [r'|]; [|destruct H].
    destruct H as [-> | []]. reflexivity.
  - rewrite H. left. reflexivity.
Qed.

Lemma extract_line_fields (line : text) (r : referral) :
  extract_line line = Some r ->
  exists m,
    re_search line_re line = Some m
    /\ has_keyword (group 2 m) = true
    /\ sender r = group 1 m /\ message r = group 2 m
    /\ business_name r = match re_search business_re (group 2 m) with
                         | Some bm => group0 bm
                         | None => unknown_business
                         end
    /\ contact r = match re_search phone_re (group 2 m) with
                   | Some pm => group0 pm
                   | None => no_contact_found
                   end.
Proof.
  unfold extract_line. destruct (re_search line_re line) as [m|]; [|discriminate].
  fold (has_keyword (group 2 m)).
  destruct (has_keyword (group 2 m)) eqn:K; [|discriminate].
  intros E. apply some_inj in E. subst r. exists m.
  cbn [sender message business_name contact].
  split; [reflexivity|]. split; [exact K|]. repeat split.
  pose proof (findall_first phone_re (group 2 m)) as F.
  destruct (re_findall phone_re (group 2 m)); destruct (re_search phone_re (group 2 m));
    simpl in F; congruence.
Qed.

Lemma has_keyword_spec (message : text) :
  has_keyword message = true <->
  exists k, In k keywords /\ occurs k (lower message).
Proof.
  unfold has_keyword. rewrite existsb_exists.
  split; intros [k [I H]]; exists k; (split; [exact I|]); apply contains_spec; exact H.
Qed.

Lemma transcript_shape_matches (line : text) :
  transcript_shape line <-> re_search line_re line <> None.
Proof.
  split.
  - intros [pre [st [who [tail [-> [S D]]]]]]. apply line_shape_matches; assumption.
  - destruct (re_search line_re line) as [m|] eqn:E; [|congruence]. intros _.
    apply line_match_shape in E.
    destruct E as [pre [st [eol [E [S [D _]]]]]].
    exists pre, st, (group 1 m), (group 2 m ++ eol). auto.
Qed.

Lemma is_code_eq (n : nat) (c : ascii) :
  n < 256 -> is_code n c = true -> c = ascii_of_nat n.
Proof.
  unfold is_code, code. intros _ H. apply Nat.eqb_eq in H.
  rewrite <- H. symmetry. apply ascii_nat_embedding.
Qed.

Lemma all_in_In (p : ascii -> bool) (l : text) (c : ascii) :
  all_in p l -> In c l -> p c = true.
Proof. unfold all_in. rewrite forallb_forall. auto. Qed.

Lemma lines_of_line (t line : text) :
  In line (lines_of t) ->
  exists body, all_in is_dot body /\ (line = body \/ line = body ++ [LF]).
Proof.
  revert line; induction t as [|c t IH]; intros line; simpl; [intros []|].
  destruct (is_code 10 c) eqn:E.
  - intros [<- | I]; [|apply IH; exact I].
    exists []. split; [reflexivity|]. right.
    rewrite (is_code_eq 10 c) by (try lia; exact E). reflexivity.
  - assert (D : is_dot c = true) by (unfold is_dot; rewrite E; reflexivity).
    destruct (lines_of t) as [|l ls] eqn:El.
    + intros [<- | []]. exists [c]. split; [|left; reflexivity].
      apply all_in_cons. split; [exact D | reflexivity].
    + intros [<- | I].
      * destruct (IH l (or_introl eq_refl)) as [body [A [-> | ->]]].
        -- exists (c :: body). split; [|left; reflexivity].
           apply all_in_cons. auto.
        -- exists (c :: body). split; [|right; reflexivity].
           apply all_in_cons. auto.
      * apply IH. right. exact I.
Qed.

Lemma line_end_of_line (body line x eol : text) :
  all_in is_dot body -> line = body \/ line = body ++ [LF] ->
  line = x ++ eol -> line_end eol -> eol = [] \/ eol = [LF].
Proof.
  intros A HL E [-> | [t ->]]; [left; reflexivity|]. right.
  assert (NB : forall y z, body = y ++ LF :: z -> False).
  { intros y z Eb. assert (I : In LF body) by (rewrite Eb; apply in_elt).
    apply (all_in_In _ _ _ A) in I. discriminate. }
  destruct HL as [-> | ->].
  - exfalso. apply (NB x t). exact E.
  - destruct (exists_last (l := LF :: t)) as [t' [z Et]]; [discriminate|].
    destruct t' as [|y t'].
    + simpl in Et. injection Et as <- ->. reflexivity.
    + exfalso. simpl in Et. injection Et as <- ->.
      rewrite app_comm_cons, app_assoc in E. apply app_inj_tail in E.
      destruct E as [E _]. apply (NB x t'). exact E.
Qed.

(** C1, as the specification has it, fails: the marker need not be AM or PM. *)
Lemma marker_need_not_be_am_pm :
  extract_line (txt "[01/02/23, 3:45 MM] Bob: call me")
  = Some (Referral (txt "Bob") unknown_business no_contact_found (txt "call me"))
  /\ ~ am_pm_shape (txt "[01/02/23, 3:45 MM] Bob: call me").
Proof.
  split; [vm_compute; reflexivity|].
  intros [pre [st [who [tail [E [[dd [mm [yy [h [mi [ap [-> [_ [_ [_ [_ [_ A]]]]]]]]]]]] _]]]]]].
  assert (O : occurs (ap ++ txt "] ") (txt "[01/02/23, 3:45 MM] Bob: call me")).
  { rewrite E. exists (pre ++ txt "[" ++ dd ++ txt "/" ++ mm ++ txt "/" ++ yy
                         ++ txt ", " ++ h ++ txt ":" ++ mi ++ txt " "),
                      (who ++ txt ": " ++ tail).
    repeat rewrite <- app_assoc. reflexivity. }
  apply contains_spec in O. destruct A as [-> | ->]; vm_compute in O; discriminate.
Qed.

(** C1 (amended): a line that does not hold, at some place, a stamp with a
    two-letter marker over A, P and M, a sender, a colon and a space, adds
    no record. *)
Theorem unshaped_line_is_skipped (line : text) :
  ~ transcript_shape line -> extract_line line = None.
Proof.
  intros N. unfold extract_line.
  destruct (re_search line_re line) eqn:E; [|reflexivity].
  exfalso. apply N, transcript_shape_matches. congruence.
Qed.

Lemma unshaped_line_is_skipped_witness :
  ~ transcript_shape (txt "Messages are end-to-end encrypted, call me")
  /\ extract_line (txt "Messages are end-to-end encrypted, call me") = None.
Proof.
  assert (N : ~ transcript_shape (txt "Messages are end-to-end encrypted, call me")).
  { intros S. apply transcript_shape_matches in S. apply S.
    vm_compute. reflexivity. }
  split; [exact N | apply (unshaped_line_is_skipped _ N)].
Defined.

(** C4: a line the pattern matches adds a record exactly when the
    lower-cased message holds one of the keywords as a substring; the test
    does not look at word boundaries ("poetry" holds "try"). *)
Theorem keyword_decides (line : text) (m : rmatch) :
  re_search line_re line = Some m ->
  ((exists r, extract_line line = Some r /\ message r = group 2 m) <->
   (exists k, In k keywords /\ occurs k (lower (group 2 m))))
  /\ ((forall k, In k keywords -> ~ occurs k (lower (group 2 m))) ->
      extract_line line = None)
  /\ keywords = map txt [ "recommend"; "try"; "call"; "great"; "looking for";
                          "know a good"; "fixed my"; "super reliable" ]%string
  /\ extract_line (txt "[01/02/23, 3:45 PM] Bob: I like POETRY") <> None.
Proof.
  intros E. split; [|split; [|split; [reflexivity | vm_compute; discriminate]]].
  - rewrite <- has_keyword_spec. unfold extract_line. rewrite E.
    fold (has_keyword (group 2 m)).
    destruct (has_keyword (group 2 m)); split.
    + reflexivity.
    + intros _. eexists. split; reflexivity.
    + intros [r [H _]]. discriminate.
    + discriminate.
  - intros N. unfold extract_line. rewrite E. fold (has_keyword (group 2 m)).
    destruct (has_keyword (group 2 m)) eqn:K; [|reflexivity].
    apply has_keyword_spec in K. destruct K as [k [I O]].
    exfalso. exact (N k I O).
Qed.

Lemma keyword_decides_witness :
  exists m,
    re_search line_re (txt "[01/02/23, 3:45 PM] Bob: You should TRY them") = Some m
    /\ ((exists r, extract_line (txt "[01/02/23, 3:45 PM] Bob: You should TRY them")
                   = Some r /\ message r = group 2 m) <->
        (exists k, In k keywords /\ occurs k (lower (group 2 m)))).
Proof.
  eexists. split; [vm_compute; reflexivity|].
  apply (keyword_decides (txt "[01/02/23, 3:45 PM] Bob: You should TRY them")).
  vm_compute. reflexivity.
Defined.

(** C9: the line pattern is searched for, not anchored: text before the
    stamp does not prevent the record. *)
Theorem match_is_not_anchored :
  exists junk r,
    junk <> []
    /\ extract_line (junk ++ txt "[01/02/23, 3:45 PM] Bob: call me") = Some r
    /\ sender r = txt "Bob" /\ message r = txt "call me".
Proof.
  exists (txt "junk "). eexists. split; [discriminate|].
  split; [vm_compute; reflexivity|]. split; reflexivity.
Qed.

(** C10: the sender is the text from the stamp up to the first colon and
    space after it, so it holds no colon followed by a space; all that comes
    after that colon and space, up to the end of the line, is the message. *)
Theorem sender_ends_at_first_colon (t : text) (r : referral) :
  In r (extract_lines (lines_of t)) ->
  exists line pre st eol,
    In line (lines_of t)
    /\ line = pre ++ st ++ sender r ++ txt ": " ++ message r ++ eol
    /\ stamp st
    /\ ~ occurs (txt ": ") (sender r)
    /\ (eol = [] \/ eol = [LF]).
Proof.
  intros I. apply extract_lines_spec in I. destruct I as [line [I E]].
  apply extract_line_fields in E.
  destruct E as [m [E [_ [Es [Em _]]]]].
  apply line_match_shape in E.
  destruct E as [pre [st [eol [E [S [_ [N [_ Le]]]]]]]].
  rewrite <- Es, <- Em in *.
  exists line, pre, st, eol. repeat split; try assumption.
  destruct (lines_of_line _ _ I) as [body [A HL]].
  apply (line_end_of_line body line
           (pre ++ st ++ sender r ++ txt ": " ++ message r) eol A HL);
    [|exact Le].
  rewrite E. repeat rewrite <- app_assoc. reflexivity.
Qed.

Lemma sender_ends_at_first_colon_witness :
  In (Referral (txt "Bob") unknown_business no_contact_found (txt "call: me: now"))
     (extract_lines (lines_of (txt "[01/02/23, 3:45 PM] Bob: call: me: now")))
  /\ exists line pre st eol,
      In line (lines_of (txt "[01/02/23, 3:45 PM] Bob: call: me: now"))
      /\ line = pre ++ st ++ txt "Bob" ++ txt ": " ++ txt "call: me: now" ++ eol
      /\ stamp st
      /\ ~ occurs (txt ": ") (txt "Bob")
      /\ (eol = [] \/ eol = [LF]).
Proof.
  assert (I : In (Referral (txt "Bob") unknown_business no_contact_found
                           (txt "call: me: now"))
                 (extract_lines (lines_of (txt "[01/02/23, 3:45 PM] Bob: call: me: now")))).
  { vm_compute. left. reflexivity. }
  split; [exact I|].
  exact (sender_ends_at_first_colon
           (txt "[01/02/23, 3:45 PM] Bob: call: me: now") _ I).
Defined.

Lemma plain_phone_chars (p : text) (c : ascii) :
  plain_phone_shape p -> In c p ->
  is_digit c = true \/ In c (txt "-. ").
Proof.
  intros [a [s1 [b [s2 [d [-> [[_ Da] [S1 [[_ Db] [S2 [_ Dd]]]]]]]]]]] I.
  assert (PS : forall s, plain_separator s -> In c s -> In c (txt "-. ")).
  { intros s [-> | [-> | [-> | ->]]]; simpl; tauto. }
  repeat (apply in_app_or in I; destruct I as [I | I]);
    eauto using all_in_In.
Qed.

(** C2, as the specification has it, fails: a number glued to a word
    character is not taken although it has the shape, and a number whose
    groups are separated by tabs is taken although it has not. *)
Lemma phone_needs_word_boundaries :
  (extract_line (txt "[01/02/23, 3:45 PM] Bob: call x555-123-4567")
   = Some (Referral (txt "Bob") unknown_business no_contact_found
                    (txt "call x555-123-4567"))
   /\ txt "call x555-123-4567" = txt "call x" ++ txt "555-123-4567" ++ []
   /\ plain_phone_shape (txt "555-123-4567"))
  /\ (extract_line (txt "[01/02/23, 3:45 PM] Bob: call 555" ++ TAB :: txt "123"
                    ++ TAB :: txt "4567")
      = Some (Referral (txt "Bob") unknown_business
                       (txt "555" ++ TAB :: txt "123" ++ TAB :: txt "4567")
                       (txt "call 555" ++ TAB :: txt "123" ++ TAB :: txt "4567"))
      /\ ~ plain_phone_shape (txt "555" ++ TAB :: txt "123" ++ TAB :: txt "4567")).
Proof.
  split; split; try (vm_compute; reflexivity).
  - split; [reflexivity|].
    exists (txt "555"), (txt "-"), (txt "123"), (txt "-"), (txt "4567").
    unfold digits, plain_separator, all_in.
    repeat split; try reflexivity; auto.
  - intros P. destruct (plain_phone_chars _ TAB P) as [D | I].
    + simpl. tauto.
    + discriminate.
    + simpl in I. repeat (destruct I as [I | I]; [discriminate|]). exact I.
Qed.

(** C2 (amended): the contact of a record is the first occurrence in the
    message of ten digits grouped 3-3-4, the groups separated by nothing or
    by one hyphen, dot or white-space character, the whole between two word
    boundaries; it is "No Contact Found" when the message has no such
    occurrence. *)
Theorem contact_is_first_phone (lines : list text) (r : referral) :
  In r (extract_lines lines) ->
  ((contact r = no_contact_found
    /\ forall a p b, ~ phone_at (message r) a p b)
   \/ (exists a b,
         phone_at (message r) a (contact r) b
         /\ forall a' p' b', phone_at (message r) a' p' b' ->
              length a <= length a'
              /\ (length a' = length a -> p' = contact r)))
  /\ (message r = txt "Call John 555-123-4567 now" ->
      contact r = txt "555-123-4567").
Proof.
  intros I. apply extract_lines_spec in I. destruct I as [line [_ E]].
  apply extract_line_fields in E.
  destruct E as [m [_ [_ [_ [Em [_ Ec]]]]]]. rewrite <- Em in Ec. split.
  - destruct (re_search phone_re (message r)) as [pm|] eqn:S.
    + right. rewrite Ec. apply phone_search_some. exact S.
    + left. split; [exact Ec|]. apply phone_search_none. exact S.
  - intros M. rewrite Ec, M. vm_compute. reflexivity.
Qed.

Lemma contact_is_first_phone_witness :
  In (Referral (txt "Bob") (txt "Call John") (txt "555-123-4567")
               (txt "Call John 555-123-4567 now"))
     (extract_lines [txt "[01/02/23, 3:45 PM] Bob: Call John 555-123-4567 now"])
  /\ ((txt "555-123-4567" = no_contact_found
       /\ forall a p b, ~ phone_at (txt "Call John 555-123-4567 now") a p b)
      \/ (exists a b,
            phone_at (txt "Call John 555-123-4567 now") a (txt "555-123-4567") b
            /\ forall a' p' b',
                 phone_at (txt "Call John 555-123-4567 now") a' p' b' ->
                 length a <= length a'
                 /\ (length a' = length a -> p' = txt "555-123-4567"))).
Proof.
  assert (I : In (Referral (txt "Bob") (txt "Call John") (txt "555-123-4567")
                           (txt "Call John 555-123-4567 now"))
                 (extract_lines
                    [txt "[01/02/23, 3:45 PM] Bob: Call John 555-123-4567 now"])).
  { vm_compute. left. reflexivity. }
  split; [exact I|].
  exact (proj1 (contact_is_first_phone _ _ I)).
Defined.

Lemma cap_word_chars (w : text) (c : ascii) :
  cap_word w -> In c w -> is_upper c = true \/ is_lower c = true.
Proof.
  intros [u [ls [-> [U [_ A]]]]] [<- | I]; [left; exact U | right].
  eapply all_in_In; eassumption.
Qed.

Lemma plain_cap_run_chars (l : text) (c : ascii) :
  plain_cap_run l -> In c l ->
  is_upper c = true \/ is_lower c = true \/ c = " "%char.
Proof.
  intros [w [more [-> [W F]]]] I. apply in_app_or in I. destruct I as [I | I].
  - destruct (cap_word_chars _ _ W I); auto.
  - apply in_concat in I. destruct I as [b [Ib Ic]].
    rewrite Forall_forall in F. destruct (F b Ib) as [w' [-> W']].
    destruct Ic as [<- | Ic]; [auto|].
    destruct (cap_word_chars _ _ W' Ic); auto.
Qed.

(** C3, as the specification has it, fails: words separated by a tab are
    taken as one name. *)
Lemma business_words_may_be_tabbed :
  extract_line (txt "[01/02/23, 3:45 PM] Bob: try Blue" ++ TAB :: txt "Sky")
  = Some (Referral (txt "Bob") (txt "Blue" ++ TAB :: txt "Sky") no_contact_found
                   (txt "try Blue" ++ TAB :: txt "Sky"))
  /\ ~ plain_cap_run (txt "Blue" ++ TAB :: txt "Sky")
  /\ txt "Blue" ++ TAB :: txt "Sky" <> unknown_business.
Proof.
  split; [vm_compute; reflexivity|]. split; [|discriminate].
  intros P. destruct (plain_cap_run_chars _ TAB P) as [D | [D | D]];
    try discriminate.
  simpl. tauto.
Qed.

(** C3 (amended): the business name of a record is the first run of
    capitalised words of the message, the words separated by one
    white-space character, taken from the leftmost place where such a run
    starts and as long as it goes; it is "Unknown Business" when the message
    has no capitalised word.  A capital letter alone starts no run. *)
Theorem business_is_first_cap_run (lines : list text) (r : referral) :
  In r (extract_lines lines) ->
  ((business_name r = unknown_business
    /\ forall a b c, message r = a ++ b ++ c -> ~ cap_run b)
   \/ (exists a c,
         message r = a ++ business_name r ++ c
         /\ cap_run (business_name r)
         /\ forall a' b' c', message r = a' ++ b' ++ c' -> cap_run b' ->
              length a <= length a'
              /\ (length a' = length a ->
                  length b' <= length (business_name r))))
  /\ (message r = txt "recommend Blue Sky Plumbing today" ->
      business_name r = txt "Blue Sky Plumbing")
  /\ (message r = txt "I recommend Blue Sky Plumbing for repairs" ->
      business_name r = txt "Blue Sky Plumbing").
Proof.
  intros I. apply extract_lines_spec in I. destruct I as [line [_ E]].
  apply extract_line_fields in E.
  destruct E as [m [_ [_ [_ [Em [Eb _]]]]]]. rewrite <- Em in Eb.
  split; [|split].
  - destruct (re_search business_re (message r)) as [bm|] eqn:S.
    + right. rewrite Eb. apply business_search_some. exact S.
    + left. split; [exact Eb|]. apply business_search_none. exact S.
  - intros M. rewrite Eb, M. vm_compute. reflexivity.
  - intros M. rewrite Eb, M. vm_compute. reflexivity.
Qed.

Lemma business_is_first_cap_run_witness :
  In (Referral (txt "Al") (txt "Blue Sky Plumbing") no_contact_found
               (txt "I recommend Blue Sky Plumbing for repairs"))
     (extract_lines
        [txt "[01/02/23, 3:45 PM] Al: I recommend Blue Sky Plumbing for repairs"])
  /\ ((txt "Blue Sky Plumbing" = unknown_business
       /\ forall a b c,
            txt "I recommend Blue Sky Plumbing for repairs" = a ++ b ++ c ->
            ~ cap_run b)
      \/ (exists a c,
            txt "I recommend Blue Sky Plumbing for repairs"
            = a ++ txt "Blue Sky Plumbing" ++ c
            /\ cap_run (txt "Blue Sky Plumbing")
            /\ forall a' b' c',
                 txt "I recommend Blue Sky Plumbing for repairs" = a' ++ b' ++ c' ->
                 cap_run b' ->
                 length a <= length a'
                 /\ (length a' = length a ->
                     length b' <= length (txt "Blue Sky Plumbing")))).
Proof.
  assert (I : In (Referral (txt "Al") (txt "Blue Sky Plumbing") no_contact_found
                           (txt "I recommend Blue Sky Plumbing for repairs"))
                 (extract_lines
                    [txt "[01/02/23, 3:45 PM] Al: I recommend Blue Sky Plumbing for repairs"])).
  { vm_compute. left. reflexivity. }
  split; [exact I|].
  exact (proj1 (business_is_first_cap_run _ _ I)).
Defined.

(** * The input folder *)

Lemma dir_lookup_remove (n f : text) (d : directory) :
  dir_lookup n (dir_remove f d) =
  if text_eqb n f then None else dir_lookup n d.
Proof.
  induction d as [|[k c] d IH]; simpl.
  - destruct (text_eqb n f); reflexivity.
  - destruct (text_eqb k f) eqn:Ekf; simpl.
    + rewrite IH. destruct (text_eqb n f) eqn:Enf; [reflexivity|].
      destruct (text_eqb k n) eqn:Ekn; [|reflexivity].
      apply text_eqb_eq in Ekf, Ekn. subst.
      rewrite text_eqb_refl in Enf. discriminate.
    + rewrite IH. destruct (text_eqb k n) eqn:Ekn.
      * apply text_eqb_eq in Ekn. subst k. rewrite Ekf. reflexivity.
      * reflexivity.
Qed.

Lemma dir_lookup_names (n : text) (d : directory) :
  dir_lookup n d = None <-> ~ In n (map fst d).
Proof.
  induction d as [|[k c] d IH]; simpl; [tauto|].
  destruct (text_eqb k n) eqn:E.
  - apply text_eqb_eq in E. split; [discriminate | tauto].
  - apply text_eqb_neq in E. rewrite IH. tauto.
Qed.

(** What [process_file] does with a file that decodes. *)
Lemma process_file_decodes (w : world) (f t : text) :
  endswith f (txt ".txt") = true ->
  dir_lookup f (uploads w) = Some (Utf8 t) ->
  exists w',
    process_file f w = (w', Ok tt)
    /\ uploads w' = dir_remove f (uploads w)
    /\ (extract_lines (lines_of (universal_newlines t)) = [] ->
        outputs w' = outputs w).
Proof.
  intros E L. unfold process_file. rewrite E.
  unfold bind at 1. cbn [print].
  unfold bind at 1. unfold extract_service_referrals, readlines, read_text.
  unfold bind at 1. unfold bind at 1. cbn [fst snd dir_of uploads]. rewrite L.
  cbn [ret].
  destruct (extract_lines (lines_of (universal_newlines t))) as [|r rs] eqn:X.
  - unfold bind, print, os_remove. cbn [fst snd dir_of uploads with_dir outputs stdout].
    rewrite L. eexists. split; [reflexivity|]. split; reflexivity.
  - unfold bind, print, os_remove, save_to_json, save_to_csv, write_text.
    cbn [fst snd dir_of uploads with_dir outputs stdout].
    rewrite L. eexists. split; [reflexivity|]. split; [reflexivity | discriminate].
Qed.

Lemma process_file_not_utf8 (w : world) (f : text) :
  endswith f (txt ".txt") = true ->
  dir_lookup f (uploads w) = Some NotUtf8 ->
  process_file f w
  = (after_print (txt "Processing " ++ f ++ txt "...") w, Raise UnicodeDecodeError).
Proof.
  intros E L. unfold process_file. rewrite E.
  unfold bind at 1. cbn [print].
  unfold bind at 1. unfold extract_service_referrals, readlines, read_text.
  unfold bind at 1. unfold bind at 1. cbn [fst snd dir_of uploads]. rewrite L.
  reflexivity.
Qed.

Lemma process_file_other (w : world) (f : text) :
  endswith f (txt ".txt") = false -> process_file f w = (w, Ok tt).
Proof. intros E. unfold process_file. rewrite E. reflexivity. Qed.

Lemma listed_In (n : text) (names : list text) :
  listed n names = true <-> In n names.
Proof.
  unfold listed. rewrite existsb_exists. split.
  - intros [x [I E]]. apply text_eqb_eq in E. subst. exact I.
  - intros I. exists n. split; [exact I | apply text_eqb_refl].
Qed.

(** Processing a list of distinct names whose text files all decode. *)
Lemma for_each_decodes (names : list text) :
  forall w,
    NoDup names ->
    (forall n, In n names -> endswith n (txt ".txt") = true ->
               exists t, dir_lookup n (uploads w) = Some (Utf8 t)) ->
    exists w',
      for_each names process_file w = (w', Ok tt)
      /\ forall n, dir_lookup n (uploads w') =
                   if listed n names && endswith n (txt ".txt") then None
                   else dir_lookup n (uploads w).
Proof.
  induction names as [|f names IH]; intros w ND H.
  - exists w. split; [reflexivity|]. intros n. reflexivity.
  - inversion ND as [|? ? NI ND']; subst.
    assert (Step : exists w1, process_file f w = (w1, Ok tt)
                   /\ forall n, dir_lookup n (uploads w1) =
                                if text_eqb n f && endswith n (txt ".txt")
                                then None else dir_lookup n (uploads w)).
    { destruct (endswith f (txt ".txt")) eqn:E.
      - destruct (H f (or_introl eq_refl) E) as [t L].
        destruct (process_file_decodes w f t E L) as [w1 [P [U _]]].
        exists w1. split; [exact P|]. intros n. rewrite U, dir_lookup_remove.
        destruct (text_eqb n f) eqn:En; [|reflexivity].
        apply text_eqb_eq in En. subst n. rewrite E. reflexivity.
      - exists w. split; [apply process_file_other; exact E|]. intros n.
        destruct (text_eqb n f) eqn:En; [|reflexivity].
        apply text_eqb_eq in En. subst n. rewrite E. reflexivity. }
    destruct Step as [w1 [P U1]].
    destruct (IH w1 ND') as [w' [F U']].
    + intros n I En. rewrite U1.
      destruct (text_eqb n f) eqn:Enf.
      * apply text_eqb_eq in Enf. subst n. contradiction.
      * simpl. apply H; [right; exact I | exact En].
    + exists w'. split.
      * cbn [for_each]. unfold bind. rewrite P. exact F.
      * intros n. rewrite U', U1. cbn [listed existsb].
        fold (listed n names).
        destruct (text_eqb n f), (listed n names), (endswith n (txt ".txt"));
          reflexivity.
Qed.

(** C8: a text file of the input folder that decodes is gone from the
    folder once it has been processed, whether or not it held referrals. *)
Theorem processed_file_is_removed (w : world) (f t : text) :
  endswith f (txt ".txt") = true ->
  dir_lookup f (uploads w) = Some (Utf8 t) ->
  exists w',
    process_file f w = (w', Ok tt)
    /\ ~ In f (map fst (uploads w'))
    /\ (forall n, n <> f -> dir_lookup n (uploads w') = dir_lookup n (uploads w))
    /\ (extract_lines (lines_of (universal_newlines t)) = [] ->
        outputs w' = outputs w).
Proof.
  intros E L. destruct (process_file_decodes w f t E L) as [w' [P [U O]]].
  exists w'. split; [exact P|]. split; [|split; [|exact O]].
  - apply dir_lookup_names. rewrite U, dir_lookup_remove, text_eqb_refl. reflexivity.
  - intros n N. rewrite U, dir_lookup_remove.
    apply text_eqb_neq in N. rewrite N. reflexivity.
Qed.

Lemma for_each_app (A : Type) (l1 l2 : list A) (body : A -> io unit) (w : world) :
  for_each (l1 ++ l2) body w =
  match for_each l1 body w with
  | (w1, Ok _) => for_each l2 body w1
  | (w1, Raise e) => (w1, Raise e)
  end.
Proof.
  revert w; induction l1 as [|x l1 IH]; intros w; [reflexivity|].
  simpl. unfold bind. destruct (body x w) as [w1 [[]|e]]; [apply IH | reflexivity].
Qed.

(** C5, as the specification has it, fails: a file that does not decode
    ends the run, and the files listed after it stay unprocessed. *)
Lemma undecodable_file_ends_the_run :
  process_uploaded_files
    (World [ (txt "a.txt", NotUtf8);
             (txt "b.txt", Utf8 (txt "[01/02/23, 3:45 PM] Bob: call me")) ]
           [] [])
  = (World [ (txt "a.txt", NotUtf8);
             (txt "b.txt", Utf8 (txt "[01/02/23, 3:45 PM] Bob: call me")) ]
           [] [txt "Processing a.txt..."],
     Raise UnicodeDecodeError).
Proof. vm_compute. reflexivity. Qed.

(** C5 (amended): in batch mode a file that does not decode as text ends
    the whole run with the decoding error: the files listed before it have
    been processed, the file itself and every file listed after it are left
    in the input folder as they were. *)
Theorem decode_failure_ends_the_batch (w : world) (before after : list text)
        (f : text) :
  map fst (uploads w) = before ++ f :: after ->
  NoDup (map fst (uploads w)) ->
  endswith f (txt ".txt") = true ->
  dir_lookup f (uploads w) = Some NotUtf8 ->
  (forall n, In n before -> endswith n (txt ".txt") = true ->
             exists t, dir_lookup n (uploads w) = Some (Utf8 t)) ->
  exists w',
    process_uploaded_files w = (w', Raise UnicodeDecodeError)
    /\ (forall n, In n (f :: after) ->
                  dir_lookup n (uploads w') = dir_lookup n (uploads w))
    /\ (forall n, In n before -> endswith n (txt ".txt") = true ->
                  dir_lookup n (uploads w') = None).
Proof.
  intros EL ND E L H.
  rewrite EL in ND. apply NoDup_app_remove_r in ND as ND1.
  destruct (for_each_decodes before w ND1 H) as [w1 [F U]].
  assert (Out : forall n, In n (f :: after) -> listed n before = false).
  { intros n I. destruct (listed n before) eqn:X; [|reflexivity].
    apply listed_In in X. exfalso.
    revert ND. clear - I X. induction before as [|b before IH]; [destruct X|].
    simpl. intros ND. inversion ND as [|? ? NI ND']; subst.
    destruct X as [-> | X]; [|apply IH; assumption].
    apply NI. apply in_or_app. right. exact I. }
  assert (L1 : dir_lookup f (uploads w1) = Some NotUtf8).
  { rewrite U, (Out f (or_introl eq_refl)). exact L. }
  exists (after_print (txt "Processing " ++ f ++ txt "...") w1).
  split; [|split].
  - unfold process_uploaded_files, bind, listdir. cbn [dir_of]. rewrite EL.
    rewrite for_each_app, F. cbn [for_each]. unfold bind.
    rewrite (process_file_not_utf8 w1 f E L1). reflexivity.
  - intros n I. cbn [after_print uploads]. rewrite U, (Out n I). reflexivity.
  - intros n I En. cbn [after_print uploads]. rewrite U.
    rewrite (proj2 (listed_In n before) I), En. reflexivity.
Qed.

Lemma decode_failure_ends_the_batch_witness :
  exists w',
    process_uploaded_files
      (World [ (txt "a.txt", Utf8 (txt "[01/02/23, 3:45 PM] Bob: call me"));
               (txt "b.txt", NotUtf8);
               (txt "c.txt", Utf8 (txt "[01/02/23, 3:46 PM] Al: try Joe")) ]
             [] [])
    = (w', Raise UnicodeDecodeError)
    /\ (forall n, In n [txt "b.txt"; txt "c.txt"] ->
          dir_lookup n (uploads w')
          = dir_lookup n [ (txt "a.txt", Utf8 (txt "[01/02/23, 3:45 PM] Bob: call me"));
                           (txt "b.txt", NotUtf8);
                           (txt "c.txt", Utf8 (txt "[01/02/23, 3:46 PM] Al: try Joe")) ])
    /\ (forall n, In n [txt "a.txt"] -> endswith n (txt ".txt") = true ->
          dir_lookup n (uploads w') = None).
Proof.
  apply (decode_failure_ends_the_batch
           (World [ (txt "a.txt", Utf8 (txt "[01/02/23, 3:45 PM] Bob: call me"));
                    (txt "b.txt", NotUtf8);
                    (txt "c.txt", Utf8 (txt "[01/02/23, 3:46 PM] Al: try Joe")) ]
                  [] [])
           [txt "a.txt"] [txt "c.txt"] (txt "b.txt")).
  - reflexivity.
  - repeat constructor; simpl; intuition discriminate.
  - reflexivity.
  - reflexivity.
  - intros n [<- | []] _. eexists. reflexivity.
Defined.

Lemma processed_file_is_removed_witness :
  exists w',
    process_file (txt "a.txt")
      (World [ (txt "a.txt", Utf8 (txt "hello")); (txt "notes.md", NotUtf8) ] [] [])
    = (w', Ok tt)
    /\ ~ In (txt "a.txt") (map fst (uploads w'))
    /\ (forall n, n <> txt "a.txt" ->
          dir_lookup n (uploads w')
          = dir_lookup n [ (txt "a.txt", Utf8 (txt "hello")); (txt "notes.md", NotUtf8) ])
    /\ (extract_lines (lines_of (universal_newlines (txt "hello"))) = [] ->
        outputs w' = []).
Proof.
  apply (processed_file_is_removed
           (World [ (txt "a.txt", Utf8 (txt "hello")); (txt "notes.md", NotUtf8) ] [] [])
           (txt "a.txt") (txt "hello")); reflexivity.
Defined.

(** The whole batch, when every text file of the folder decodes: the run
    ends without error and no text file is left. *)
Lemma batch_removes_every_text_file (w : world) :
  NoDup (map fst (uploads w)) ->
  (forall n, In n (map fst (uploads w)) -> endswith n (txt ".txt") = true ->
             exists t, dir_lookup n (uploads w) = Some (Utf8 t)) ->
  exists w',
    process_uploaded_files w = (w', Ok tt)
    /\ forall n, In n (map fst (uploads w')) -> endswith n (txt ".txt") = false.
Proof.
  intros ND H. destruct (for_each_decodes _ w ND H) as [w' [F U]].
  exists w'. split; [exact F|]. intros n I.
  destruct (endswith n (txt ".txt")) eqn:E; [|reflexivity]. exfalso.
  assert (X : dir_lookup n (uploads w') <> None).
  { intros X. apply dir_lookup_names in X. contradiction. }
  apply X. rewrite U, E. destruct (listed n (map fst (uploads w))) eqn:Li.
  - reflexivity.
  - simpl. apply dir_lookup_names. intros I'. apply listed_In in I'. congruence.
Qed.

(** * Strings: the scanner undoes the encoder *)

Lemma scan_escape_char (c : ascii) (tl acc : text) :
  scan_string (escape_char c ++ tl) acc = scan_string tl (c :: acc).
Proof.
  each_char c; reflexivity.
Qed.

Lemma scan_escaped (s tl acc : text) :
  scan_string (flat_map escape_char s ++ QUOTE :: tl) acc = Some (rev acc ++ s, tl).
Proof.
  revert acc; induction s as [|c s IH]; intros acc.
  - simpl. rewrite app_nil_r. reflexivity.
  - cbn [flat_map]. rewrite <- app_assoc, scan_escape_char, IH.
    simpl. rewrite <- app_assoc. reflexivity.
Qed.

Lemma encode_string_app (s tl : text) :
  encode_string s ++ tl = QUOTE :: flat_map escape_char s ++ QUOTE :: tl.
Proof. unfold encode_string. simpl. rewrite <- app_assoc. reflexivity. Qed.

(** The parser, one step at a time *)

Lemma parse_value_string (f : nat) (s' : text) :
  parse (S f) PValue (QUOTE :: s') =
  match scan_string s' [] with
  | Some (str, r) => Some (JStr str, r)
  | None => None
  end.
Proof. reflexivity. Qed.

Lemma parse_value_array (f : nat) (s' : text) :
  parse (S f) PValue ("["%char :: s') =
  match skip_ws s' with
  | [] => None
  | c2 :: s2 =>
      if is_code 93 c2 then Some (JArr [], s2)
      else parse f (PItems []) (c2 :: s2)
  end.
Proof. reflexivity. Qed.

Lemma parse_value_object (f : nat) (s' : text) :
  parse (S f) PValue ("{"%char :: s') =
  match skip_ws s' with
  | [] => None
  | c2 :: s2 =>
      if is_code 125 c2 then Some (JObj [], s2)
      else parse f (PMembers []) (c2 :: s2)
  end.
Proof. reflexivity. Qed.

Lemma parse_items_step (f : nat) (acc : list json) (s : text) :
  parse (S f) (PItems acc) s =
  match parse f PValue s with
  | None => None
  | Some (v, r) =>
      match skip_ws r with
      | [] => None
      | c :: r' =>
          if is_code 93 c then Some (JArr (rev (v :: acc)), r')
          else if is_code 44 c then parse f (PItems (v :: acc)) (skip_ws r')
          else None
      end
  end.
Proof. reflexivity. Qed.

Lemma parse_members_step (f : nat) (acc : list (text * json)) (s' : text) :
  parse (S f) (PMembers acc) (QUOTE :: s') =
  match scan_string s' [] with
  | None => None
  | Some (k, r) =>
      match skip_ws r with
      | [] => None
      | c1 :: r1 =>
          if is_code 58 c1 then
            match parse f PValue (skip_ws r1) with
            | None => None
            | Some (v, r2) =>
                match skip_ws r2 with
                | [] => None
                | c3 :: r3 =>
                    if is_code 125 c3
                    then Some (JObj (dict_of (rev ((k, v) :: acc))), r3)
                    else if is_code 44 c3
                    then parse f (PMembers ((k, v) :: acc)) (skip_ws r3)
                    else None
                end
            end
          else None
      end
  end.
Proof. reflexivity. Qed.

Lemma parse_string (f : nat) (s tl : text) :
  parse (S f) PValue (encode_string s ++ tl) = Some (JStr s, tl).
Proof.
  rewrite encode_string_app, parse_value_string, scan_escaped. reflexivity.
Qed.

(** * Objects whose values are strings *)

Lemma skip_ws_indent (n : nat) (c : ascii) (s : text) :
  is_json_ws c = false -> skip_ws (newline_indent n ++ c :: s) = c :: s.
Proof.
  intros H. unfold newline_indent. cbn [app skip_ws].
  change (is_json_ws LF) with true. cbv iota.
  induction n as [|n IH]; simpl; [rewrite H; reflexivity | exact IH].
Qed.

Lemma skip_ws_stop (c : ascii) (s : text) :
  is_json_ws c = false -> skip_ws (c :: s) = c :: s.
Proof. intros H. simpl. rewrite H. reflexivity. Qed.

Lemma parse_member_step (f : nat) (acc : list (text * json)) (k v tl : text) :
  parse (S (S f)) (PMembers acc) (member k v ++ tl) =
  match skip_ws tl with
  | [] => None
  | c3 :: r3 =>
      if is_code 125 c3
      then Some (JObj (dict_of (rev ((k, JStr v) :: acc))), r3)
      else if is_code 44 c3
           then parse (S f) (PMembers ((k, JStr v) :: acc)) (skip_ws r3)
           else None
  end.
Proof.
  unfold member. rewrite <- !app_assoc, encode_string_app.
  rewrite parse_members_step, scan_escaped.
  change (txt ": " ++ encode_string v ++ tl)
    with (":"%char :: " "%char :: (encode_string v ++ tl)).
  rewrite skip_ws_stop by reflexivity.
  change (is_code 58 ":") with true. cbv iota.
  change (skip_ws (" "%char :: (encode_string v ++ tl)))
    with (skip_ws (encode_string v ++ tl)).
  rewrite (encode_string_app v tl) at 1.
  rewrite skip_ws_stop by reflexivity.
  rewrite <- encode_string_app, parse_string. reflexivity.
Qed.

Lemma parse_member_more (f n : nat) (acc : list (text * json)) (k v more : text) :
  parse (S (S f)) (PMembers acc)
        (member k v ++ txt "," ++ newline_indent n ++ QUOTE :: more)
  = parse (S f) (PMembers ((k, JStr v) :: acc)) (QUOTE :: more).
Proof.
  rewrite parse_member_step.
  change (txt "," ++ newline_indent n ++ QUOTE :: more)
    with (","%char :: (newline_indent n ++ QUOTE :: more)).
  rewrite skip_ws_stop by reflexivity.
  change (is_code 125 ",") with false. change (is_code 44 ",") with true. cbv iota.
  rewrite skip_ws_indent by reflexivity. reflexivity.
Qed.

Lemma parse_member_last (f n : nat) (acc : list (text * json)) (k v tl : text) :
  parse (S (S f)) (PMembers acc)
        (member k v ++ newline_indent n ++ txt "}" ++ tl)
  = Some (JObj (dict_of (rev ((k, JStr v) :: acc))), tl).
Proof.
  rewrite parse_member_step.
  change (txt "}" ++ tl) with ("}"%char :: tl).
  rewrite skip_ws_indent by reflexivity.
  change (is_code 125 "}") with true. reflexivity.
Qed.

Lemma encode_referral (level : nat) (r : referral) :
  encode level (to_json r) =
  txt "{" ++ newline_indent (S level)
  ++ member (txt "sender") (sender r) ++ txt "," ++ newline_indent (S level)
  ++ member (txt "business_name") (business_name r)
  ++ txt "," ++ newline_indent (S level)
  ++ member (txt "contact") (contact r) ++ txt "," ++ newline_indent (S level)
  ++ member (txt "message") (message r)
  ++ newline_indent level ++ txt "}".
Proof.
  unfold to_json, member. cbn [encode map join fst snd].
  repeat rewrite <- app_assoc. reflexivity.
Qed.

Lemma member_starts (k v tl : text) :
  member k v ++ tl = QUOTE :: (flat_map escape_char k
                               ++ QUOTE :: txt ": " ++ encode_string v ++ tl).
Proof.
  unfold member. rewrite <- !app_assoc. apply encode_string_app.
Qed.

Lemma parse_referral (f level : nat) (r : referral) (tl : text) :
  parse (6 + f) PValue (encode level (to_json r) ++ tl) = Some (to_json r, tl).
Proof.
  rewrite encode_referral. repeat rewrite <- app_assoc.
  change (6 + f) with (S (S (S (S (S (S f)))))).
  change (txt "{" ++ ?x) with ("{"%char :: x).
  rewrite parse_value_object.
  rewrite (member_starts (txt "sender")).
  rewrite skip_ws_indent by reflexivity.
  change (is_code 125 QUOTE) with false. cbv iota.
  rewrite <- member_starts.
  rewrite (member_starts (txt "business_name")), parse_member_more, <- member_starts.
  rewrite (member_starts (txt "contact")), parse_member_more, <- member_starts.
  rewrite (member_starts (txt "message")), parse_member_more, <- member_starts.
  rewrite parse_member_last. reflexivity.
Qed.

(** * Arrays of referrals *)

Lemma items_text_cons (r r2 : referral) (rs : list referral) :
  items_text (r :: r2 :: rs)
  = encode 1 (to_json r) ++ item_sep ++ items_text (r2 :: rs).
Proof. reflexivity. Qed.

Lemma items_text_starts (r : referral) (rs : list referral) (tl : text) :
  exists x, items_text (r :: rs) ++ tl = "{"%char :: x.
Proof.
  destruct rs as [|r2 rs].
  - unfold items_text. cbn [map join]. rewrite encode_referral. eexists. reflexivity.
  - rewrite items_text_cons, encode_referral. eexists. reflexivity.
Qed.

Lemma parse_items (rs : list referral) :
  forall acc f tl,
    rs <> [] -> length rs + 6 <= f ->
    parse f (PItems acc) (items_text rs ++ newline_indent 0 ++ txt "]" ++ tl)
    = Some (JArr (rev acc ++ map to_json rs), tl).
Proof.
  induction rs as [|r rs IH]; intros acc f tl NE L; [congruence|].
  destruct f as [|f]; [simpl in L; lia|]. simpl in L.
  rewrite parse_items_step. destruct rs as [|r2 rs].
  - unfold items_text. cbn [map join].
    replace f with (6 + (f - 6)) by lia. rewrite parse_referral.
    change (txt "]" ++ tl) with ("]"%char :: tl).
    rewrite skip_ws_indent by reflexivity.
    change (is_code 93 "]") with true. reflexivity.
  - rewrite items_text_cons. repeat rewrite <- app_assoc.
    replace f with (6 + (f - 6)) at 1 by lia. rewrite parse_referral.
    unfold item_sep at 1. rewrite <- app_assoc.
    change (txt "," ++ ?x) with (","%char :: x).
    rewrite skip_ws_stop by reflexivity.
    change (is_code 93 ",") with false. change (is_code 44 ",") with true.
    cbv iota.
    destruct (items_text_starts r2 rs (newline_indent 0 ++ txt "]" ++ tl)) as [x Ex].
    rewrite Ex, skip_ws_indent by reflexivity. rewrite <- Ex.
    rewrite IH; [|discriminate | simpl in *; lia].
    cbn [rev map]. rewrite <- app_assoc. reflexivity.
Qed.

Lemma join_length (sep : text) (parts : list text) :
  (forall p, In p parts -> 1 <= length p) -> length parts <= length (join sep parts).
Proof.
  induction parts as [|p parts IH]; intros H; [simpl; lia|].
  specialize (IH (fun q I => H q (or_intror I))).
  pose proof (H p (or_introl eq_refl)).
  destruct parts as [|q parts]; [simpl; lia|].
  change (join sep (p :: q :: parts)) with (p ++ sep ++ join sep (q :: parts)).
  rewrite !length_app. simpl in *. lia.
Qed.

Lemma items_text_length (rs : list referral) : length rs <= length (items_text rs).
Proof.
  unfold items_text. rewrite <- (length_map to_json rs), <- (length_map (encode 1)).
  apply join_length. intros p I. apply in_map_iff in I. destruct I as [j [<- I]].
  apply in_map_iff in I. destruct I as [r [<- _]].
  rewrite encode_referral. simpl. lia.
Qed.

Lemma json_dumps_referrals (r : referral) (rs : list referral) :
  json_dumps (JArr (map to_json (r :: rs)))
  = "["%char :: newline_indent 1 ++ items_text (r :: rs)
    ++ newline_indent 0 ++ txt "]" ++ [].
Proof. rewrite app_nil_r. reflexivity. Qed.

Lemma json_loads_dumps (rs : list referral) :
  json_loads (json_dumps (JArr (map to_json rs))) = Some (JArr (map to_json rs)).
Proof.
  destruct rs as [|r rs]; [reflexivity|].
  rewrite json_dumps_referrals. unfold json_loads.
  rewrite skip_ws_stop by reflexivity. rewrite parse_value_array.
  destruct (items_text_starts r rs (newline_indent 0 ++ txt "]" ++ [])) as [x Ex].
  rewrite Ex, skip_ws_indent by reflexivity.
  change (is_code 93 "{") with false. cbv iota. rewrite <- Ex.
  rewrite parse_items.
  - reflexivity.
  - discriminate.
  - pose proof (items_text_length (r :: rs)).
    cbn [length]. rewrite !length_app. cbn [length] in *.
    change (length (newline_indent 1)) with 5.
    change (length (newline_indent 0)) with 1.
    change (length (txt "]")) with 1. lia.
Qed.

(** * Through a file *)

Lemma universal_newlines_id (t : text) : no_cr t -> universal_newlines t = t.
Proof.
  induction 1 as [|c t H F IH]; [reflexivity|].
  cbn [universal_newlines]. rewrite H, IH. reflexivity.
Qed.

Lemma no_cr_app (a b : text) : no_cr a -> no_cr b -> no_cr (a ++ b).
Proof. intros A B. apply Forall_app. auto. Qed.

Lemma no_cr_escape (c : ascii) : no_cr (escape_char c).
Proof.
  each_char c; repeat constructor.
Qed.

Lemma no_cr_encode_string (s : text) : no_cr (encode_string s).
Proof.
  unfold encode_string. constructor; [reflexivity|]. apply no_cr_app.
  - induction s as [|c s IH]; [constructor|].
    cbn [flat_map]. apply no_cr_app; [apply no_cr_escape | exact IH].
  - repeat constructor.
Qed.

Lemma no_cr_indent (n : nat) : no_cr (newline_indent n).
Proof.
  unfold newline_indent. constructor; [reflexivity|].
  induction n as [|n IH]; [constructor|]. simpl. repeat constructor. exact IH.
Qed.

Lemma no_cr_member (k v : text) : no_cr (member k v).
Proof.
  unfold member. repeat apply no_cr_app; try apply no_cr_encode_string.
  repeat constructor.
Qed.

Lemma no_cr_referral (level : nat) (r : referral) : no_cr (encode level (to_json r)).
Proof.
  rewrite encode_referral.
  repeat first [ apply no_cr_member | apply no_cr_indent | apply no_cr_app ];
    repeat constructor.
Qed.

Lemma no_cr_items (rs : list referral) : no_cr (items_text rs).
Proof.
  induction rs as [|r rs IH]; [constructor|]. destruct rs as [|r2 rs].
  - unfold items_text. cbn [map join]. apply no_cr_referral.
  - rewrite items_text_cons. apply no_cr_app; [apply no_cr_referral|].
    apply no_cr_app; [|exact IH]. unfold item_sep.
    apply no_cr_app; [repeat constructor | apply no_cr_indent].
Qed.

Lemma no_cr_dumps (rs : list referral) :
  no_cr (json_dumps (JArr (map to_json rs))).
Proof.
  destruct rs as [|r rs]; [repeat constructor|].
  rewrite json_dumps_referrals. constructor; [reflexivity|].
  repeat first [ apply no_cr_items | apply no_cr_indent | apply no_cr_app ];
    repeat constructor.
Qed.

Lemma dir_lookup_store (n : text) (c : file_data) (d : directory) :
  dir_lookup n (dir_store n c d) = Some c.
Proof.
  induction d as [|[k c'] d IH]; simpl.
  - rewrite text_eqb_refl. reflexivity.
  - destruct (text_eqb k n) eqn:E; simpl; rewrite E; [reflexivity | exact IH].
Qed.

Lemma dir_of_with_dir (f : folder) (d : directory) (w : world) :
  dir_of f (with_dir f d w) = d.
Proof. destruct f; reflexivity. Qed.

Lemma json_load_stored (p : path) (w : world) (rs : list referral) :
  dir_lookup (snd p) (dir_of (fst p) w)
  = Some (Utf8 (json_dumps (JArr (map to_json rs)))) ->
  json_load p w = (w, Ok (JArr (map to_json rs))).
Proof.
  intros L. unfold json_load, bind, read_text. rewrite L.
  rewrite universal_newlines_id by apply no_cr_dumps.
  rewrite json_loads_dumps. reflexivity.
Qed.

(** C7: a list of referrals written by [save_to_json] and read back by
    [json.load] comes back as the same list of the same dicts, in the same
    order. *)
Theorem json_round_trip (referrals : list referral) (output_file : path)
        (w : world) :
  json_loads (json_dumps (JArr (map to_json referrals)))
  = Some (JArr (map to_json referrals))
  /\ exists w',
       (save_to_json referrals output_file ;;; json_load output_file) w
       = (w', Ok (JArr (map to_json referrals))).
Proof.
  split; [apply json_loads_dumps|].
  unfold bind at 1. unfold save_to_json, write_text.
  eexists. apply json_load_stored.
  rewrite dir_of_with_dir. apply dir_lookup_store.
Qed.

(** * search_referrals *)

Lemma message_has_referral (query : text) (r : referral) :
  message_has query (to_json r)
  = Ok (contains (lower query) (lower (message r))).
Proof. reflexivity. Qed.

Lemma select_referrals (query : text) (rs : list referral) :
  select query (map to_json rs) = Ok (map to_json (hits query rs)).
Proof.
  induction rs as [|r rs IH]; [reflexivity|].
  cbn [map select]. rewrite message_has_referral, IH. cbn [hits filter].
  destruct (contains (lower query) (lower (message r))); reflexivity.
Qed.

Lemma dir_lookup_stored (files : list (text * stored)) (e : text * stored) :
  NoDup (map fst files) -> In e files ->
  dir_lookup (fst e) (map stored_entry files) = Some (stored_data (snd e)).
Proof.
  induction files as [|x files IH]; intros ND I; [destruct I|].
  inversion ND as [|? ? NI ND']; subst. cbn [map stored_entry dir_lookup].
  destruct I as [-> | I].
  - rewrite text_eqb_refl. reflexivity.
  - destruct (text_eqb (fst x) (fst e)) eqn:E.
    + apply text_eqb_eq in E. exfalso. apply NI. rewrite E.
      apply in_map. exact I.
    + apply IH; assumption.
Qed.

Lemma search_files_stored (query : text) (w : world) (files : list (text * stored)) :
  forall results,
    (forall e, In e files ->
               dir_lookup (fst e) (outputs w) = Some (stored_data (snd e))) ->
    (forall n d, In (n, Other d) files -> endswith n (txt ".json") = false) ->
    search_files query (map fst files) results w
    = (w, Ok (results ++ flat_map (hits_of_file query) files)).
Proof.
  induction files as [|[n s] files IH]; intros results L O.
  - simpl. rewrite app_nil_r. reflexivity.
  - cbn [map fst search_files flat_map]. unfold hits_of_file at 1. cbn [fst snd].
    assert (L' : forall e, In e files ->
                 dir_lookup (fst e) (outputs w) = Some (stored_data (snd e)))
      by (intros e I; apply L; right; exact I).
    assert (O' : forall n d, In (n, Other d) files -> endswith n (txt ".json") = false)
      by (intros n' d I; apply (O n' d); right; exact I).
    destruct (endswith n (txt ".json")) eqn:E.
    + destruct s as [rs | d].
      * unfold bind at 1.
        rewrite (json_load_stored (OUTPUT_FOLDER, n) w rs (L _ (or_introl eq_refl))).
        unfold bind at 1. cbn [lift iterate].
        unfold bind at 1. cbn [lift]. rewrite select_referrals.
        rewrite IH by assumption. rewrite <- app_assoc. reflexivity.
      * rewrite (O n d (or_introl eq_refl)) in E. discriminate.
    + rewrite IH by assumption. reflexivity.
Qed.

(** C6: the search returns, file after file in the order of the listing
    and record after record in the order of each file, exactly the records
    of the JSON files whose message holds the query, both taken in lower
    case; the other fields play no part; and it returns without error, with
    no result when there is no file or no match. *)
Theorem search_returns_message_matches (w : world) (query : text)
        (files : list (text * stored)) :
  outputs w = map stored_entry files ->
  NoDup (map fst files) ->
  (forall n d, In (n, Other d) files -> endswith n (txt ".json") = false) ->
  search_referrals query w = (w, Ok (query, flat_map (hits_of_file query) files))
  /\ (forall j,
        In j (flat_map (hits_of_file query) files) <->
        exists n rs r,
          In (n, JsonOf rs) files /\ endswith n (txt ".json") = true
          /\ In r rs /\ occurs (lower query) (lower (message r))
          /\ j = to_json r)
  /\ ((forall n rs r, In (n, JsonOf rs) files -> In r rs ->
                      ~ occurs (lower query) (lower (message r))) ->
      flat_map (hits_of_file query) files = []).
Proof.
  intros EO ND O.
  assert (M : forall j,
        In j (flat_map (hits_of_file query) files) <->
        exists n rs r,
          In (n, JsonOf rs) files /\ endswith n (txt ".json") = true
          /\ In r rs /\ occurs (lower query) (lower (message r))
          /\ j = to_json r).
  { intros j. rewrite in_flat_map. split.
    - intros [[n s] [I H]]. unfold hits_of_file in H. cbn [fst snd] in H.
      destruct (endswith n (txt ".json")) eqn:E; [|destruct H].
      destruct s as [rs|d]; [|destruct H].
      apply in_map_iff in H. destruct H as [r [<- H]].
      apply filter_In in H. destruct H as [Ir C]. apply contains_spec in C.
      exists n, rs, r. auto.
    - intros [n [rs [r [I [E [Ir [C ->]]]]]]]. exists (n, JsonOf rs).
      split; [exact I|]. unfold hits_of_file. cbn [fst snd]. rewrite E.
      apply in_map. apply filter_In. split; [exact Ir|].
      apply contains_spec. exact C. }
  split; [|split; [exact M|]].
  - unfold search_referrals, bind, listdir. cbn [dir_of]. rewrite EO.
    replace (map fst (map stored_entry files)) with (map fst files)
      by (rewrite map_map; reflexivity).
    rewrite (search_files_stored query w files []).
    + reflexivity.
    + intros e I. rewrite EO. apply dir_lookup_stored; assumption.
    + exact O.
  - intros N. destruct (flat_map (hits_of_file query) files) as [|j l] eqn:X;
      [reflexivity|]. exfalso.
    destruct (proj1 (M j) (or_introl eq_refl)) as [n [rs [r [I [_ [Ir [C _]]]]]]].
    exact (N n rs r I Ir C).
Qed.

Lemma search_returns_message_matches_witness :
  search_referrals (txt "PLUMB")
    (World []
       (map stored_entry
          [ (txt "a.json",
             JsonOf [ Referral (txt "Plumber Bob") unknown_business
                               no_contact_found (txt "try them");
                      Referral (txt "Al") (txt "Blue Sky Plumbing")
                               no_contact_found
                               (txt "I recommend Blue Sky Plumbing") ]);
            (txt "a.csv", Other (Utf8 (txt "sender,business_name,contact,message")));
            (txt "b.json", JsonOf []) ])
       [])
  = (World []
       (map stored_entry
          [ (txt "a.json",
             JsonOf [ Referral (txt "Plumber Bob") unknown_business
                               no_contact_found (txt "try them");
                      Referral (txt "Al") (txt "Blue Sky Plumbing")
                               no_contact_found
                               (txt "I recommend Blue Sky Plumbing") ]);
            (txt "a.csv", Other (Utf8 (txt "sender,business_name,contact,message")));
            (txt "b.json", JsonOf []) ])
       [],
     Ok (txt "PLUMB",
         [ to_json (Referral (txt "Al") (txt "Blue Sky Plumbing") no_contact_found
                             (txt "I recommend Blue Sky Plumbing")) ])).
Proof.
  refine (proj1 (search_returns_message_matches
                   (World [] (map stored_entry _) []) (txt "PLUMB") _ eq_refl _ _)).
  - repeat constructor; simpl; intuition discriminate.
  - intros n d [H | [H | [H | []]]]; inversion H; reflexivity.
Defined.

(** * The extractor, line by line *)

Lemma extract_lines_flat (lines : list text) :
  extract_lines lines
  = flat_map (fun line => match extract_line line with
                          | Some r => [r]
                          | None => []
                          end) lines.
Proof. unfold extract_lines. rewrite extract_lines_acc. reflexivity. Qed.

(** X1: the extractor works line by line and keeps the order of the lines:
    the records of two lists of lines put end to end are the records of the
    first followed by the records of the second, and a list of lines never
    yields more records than it has lines. *)
Theorem extraction_is_line_by_line (first second : list text) :
  extract_lines (first ++ second) = extract_lines first ++ extract_lines second
  /\ length (extract_lines first) <= length first.
Proof.
  split.
  - rewrite !extract_lines_flat. apply flat_map_app.
  - rewrite extract_lines_flat. induction first as [|l ls IH]; [simpl; lia|].
    cbn [flat_map]. rewrite length_app. destruct (extract_line l); simpl; lia.
Qed.

(** * What a record can hold *)

Lemma universal_newlines_bounded (n : nat) :
  forall s, length s <= n -> no_cr (universal_newlines s).
Proof.
  induction n as [|n IH]; intros s L.
  - destruct s; [constructor | simpl in L; lia].
  - destruct s as [|c s]; [constructor|]. simpl in L.
    cbn [universal_newlines]. destruct (is_code 13 c) eqn:E.
    + constructor; [reflexivity|]. destruct s as [|c' s]; [constructor|].
      simpl in L. destruct (is_code 10 c'); apply IH; simpl; lia.
    + constructor; [exact E|]. apply IH. lia.
Qed.

Lemma universal_newlines_no_cr (s : text) : no_cr (universal_newlines s).
Proof. apply (universal_newlines_bounded (length s)). lia. Qed.

Lemma concat_lines_of (t : text) : concat (lines_of t) = t.
Proof.
  induction t as [|c t IH]; [reflexivity|]. cbn [lines_of].
  destruct (is_code 10 c).
  - cbn [concat app]. rewrite IH. reflexivity.
  - destruct (lines_of t) as [|l ls]; cbn [concat app] in *; rewrite <- IH;
      reflexivity.
Qed.

Lemma line_chars (t line : text) (c : ascii) :
  In line (lines_of t) -> In c line -> In c t.
Proof.
  intros Il Ic. rewrite <- (concat_lines_of t). apply in_concat.
  exists line. auto.
Qed.

Lemma one_line_intro (s : text) :
  (forall c, In c s -> is_code 10 c = false /\ is_code 13 c = false) ->
  one_line s.
Proof.
  intros H. unfold one_line, all_in. apply forallb_forall. intros c I.
  destruct (H c I) as [-> ->]. reflexivity.
Qed.

Lemma one_line_elim (s : text) (c : ascii) :
  one_line s -> In c s -> is_code 10 c = false /\ is_code 13 c = false.
Proof.
  intros H I. apply (all_in_In _ _ _ H) in I.
  apply andb_true_iff in I. destruct I as [A B].
  apply negb_true_iff in A, B. auto.
Qed.

Lemma one_line_part (a s b : text) : one_line (a ++ s ++ b) -> one_line s.
Proof.
  intros H. apply one_line_intro. intros c I.
  apply (one_line_elim _ c H). apply in_or_app. right.
  apply in_or_app. left. exact I.
Qed.

(** The sender and the message of a record of a file. *)
Lemma file_record_one_line (t : text) (r : referral) :
  In r (records_of t) -> one_line (sender r) /\ one_line (message r).
Proof.
  unfold records_of. intros I. apply extract_lines_spec in I.
  destruct I as [line [Il E]]. apply extract_line_fields in E.
  destruct E as [m [E [_ [Es [Em _]]]]]. apply line_match_shape in E.
  destruct E as [pre [st [eol [E [_ [D1 [_ [D2 _]]]]]]]].
  rewrite <- Es, <- Em in *.
  assert (NC : forall c, In c line -> is_code 13 c = false).
  { intros c Ic. pose proof (line_chars _ _ _ Il Ic) as It.
    pose proof (universal_newlines_no_cr t) as F.
    unfold no_cr in F. rewrite Forall_forall in F. apply F. exact It. }
  split; apply one_line_intro; intros c Ic; split.
  - apply (all_in_In _ _ _ D1) in Ic. unfold is_dot in Ic.
    apply negb_true_iff in Ic. exact Ic.
  - apply NC. rewrite E. do 2 (apply in_or_app; right).
    apply in_or_app. left. exact Ic.
  - apply (all_in_In _ _ _ D2) in Ic. unfold is_dot in Ic.
    apply negb_true_iff in Ic. exact Ic.
  - apply NC. rewrite E. do 4 (apply in_or_app; right).
    apply in_or_app. left. exact Ic.
Qed.

Lemma record_parts (lines : list text) (r : referral) :
  In r (extract_lines lines) ->
  (business_name r = unknown_business
   \/ exists a c, message r = a ++ business_name r ++ c)
  /\ (contact r = no_contact_found
      \/ exists a c, message r = a ++ contact r ++ c)
  /\ has_keyword (message r) = true.
Proof.
  intros I. apply extract_lines_spec in I. destruct I as [line [_ E]].
  apply extract_line_fields in E.
  destruct E as [m [_ [K [_ [Em [Eb Ec]]]]]]. rewrite <- Em in *.
  split; [|split; [|exact K]].
  - destruct (re_search business_re (message r)) as [bm|] eqn:S; [|left; exact Eb].
    right. apply business_search_some in S. destruct S as [a [c [E _]]].
    exists a, c. rewrite Eb. exact E.
  - destruct (re_search phone_re (message r)) as [pm|] eqn:S; [|left; exact Ec].
    right. apply phone_search_some in S. destruct S as [a [b [[E _] _]]].
    exists a, b. rewrite Ec. exact E.
Qed.

Lemma file_record_fields (t : text) (r : referral) :
  In r (records_of t) ->
  one_line (sender r) /\ one_line (business_name r)
  /\ one_line (contact r) /\ one_line (message r).
Proof.
  intros I. destruct (file_record_one_line t r I) as [Hs Hm].
  destruct (record_parts (lines_of (universal_newlines t)) r I) as [Hb [Hc _]].
  split; [exact Hs|]. split; [|split; [|exact Hm]].
  - destruct Hb as [-> | [a [c E]]]; [reflexivity|].
    rewrite E in Hm. apply (one_line_part a _ c Hm).
  - destruct Hc as [-> | [a [c E]]]; [reflexivity|].
    rewrite E in Hm. apply (one_line_part a _ c Hm).
Qed.

(** X2: every record read from a file holds a keyword in its lower-cased
    message, and none of its four fields holds a line feed or a carriage
    return. *)
Theorem file_records_are_one_line (t : text) (r : referral) :
  In r (records_of t) ->
  (exists k, In k keywords /\ occurs k (lower (message r)))
  /\ one_line (sender r) /\ one_line (business_name r)
  /\ one_line (contact r) /\ one_line (message r).
Proof.
  intros I. split; [|apply (file_record_fields t r I)].
  apply has_keyword_spec. apply (record_parts (lines_of (universal_newlines t)) r I).
Qed.

Lemma file_records_are_one_line_witness :
  In (Referral (txt "Bob") (txt "Joe") no_contact_found (txt "try Joe"))
     (records_of (txt "[01/02/23, 3:45 PM] Bob: try Joe" ++ [CR; LF]
                  ++ txt "[01/02/23, 3:46 PM] Al: ok"))
  /\ one_line (txt "try Joe").
Proof.
  assert (I : In (Referral (txt "Bob") (txt "Joe") no_contact_found (txt "try Joe"))
                 (records_of (txt "[01/02/23, 3:45 PM] Bob: try Joe" ++ [CR; LF]
                              ++ txt "[01/02/23, 3:46 PM] Al: ok"))).
  { vm_compute. left. reflexivity. }
  split; [exact I|].
  exact (proj2 (proj2 (proj2 (proj2 (file_records_are_one_line _ _ I))))).
Defined.

(** * The CSV file *)

Lemma count_char_app (c : ascii) (a b : text) :
  count_char c (a ++ b) = count_char c a + count_char c b.
Proof. apply count_occ_app. Qed.

Lemma count_char_absent (c : ascii) (s : text) :
  (forall x, In x s -> x <> c) -> count_char c s = 0.
Proof.
  intros H. apply count_occ_not_In. intros I. exact (H c I eq_refl).
Qed.

Lemma count_char_doubled_quotes (c : ascii) (s : text) :
  is_code 34 c = false ->
  count_char c (flat_map (fun x => if is_code 34 x then [x; x] else [x]) s)
  = count_char c s.
Proof.
  intros Hc. induction s as [|x s IH]; [reflexivity|].
  cbn [flat_map]. rewrite count_char_app, IH. unfold count_char at 3.
  cbn [count_occ]. fold (count_char c s).
  destruct (is_code 34 x) eqn:Ex; unfold count_char at 1; cbn [count_occ];
    destruct (ascii_dec x c) as [->|N]; try reflexivity.
  rewrite Hc in Ex. discriminate.
Qed.

Lemma count_char_csv_field (c : ascii) (s : text) :
  is_code 34 c = false -> count_char c (csv_field s) = count_char c s.
Proof.
  intros Hc. unfold csv_field. destruct (existsb csv_special s); [|reflexivity].
  change (QUOTE :: ?x ++ [QUOTE]) with ([QUOTE] ++ x ++ [QUOTE]).
  rewrite !count_char_app, count_char_doubled_quotes by exact Hc.
  assert (Q : count_char c [QUOTE] = 0).
  { apply count_char_absent. intros x [<- | []] E. subst c. discriminate. }
  rewrite Q. lia.
Qed.

Lemma count_char_one_line (c : ascii) (s : text) :
  one_line s -> c = LF \/ c = CR -> count_char c s = 0.
Proof.
  intros H Hc. apply count_char_absent. intros x I E. subst x.
  destruct (one_line_elim _ _ H I) as [A B].
  destruct Hc as [-> | ->]; discriminate.
Qed.

Lemma count_char_csv_row (c : ascii) (f1 f2 f3 f4 : text) :
  c = LF \/ c = CR ->
  one_line f1 -> one_line f2 -> one_line f3 -> one_line f4 ->
  count_char c (csv_row [f1; f2; f3; f4]) = 1.
Proof.
  intros Hc H1 H2 H3 H4. unfold csv_row. cbn [map join].
  assert (Q : is_code 34 c = false) by (destruct Hc as [-> | ->]; reflexivity).
  rewrite !count_char_app, !count_char_csv_field by exact Q.
  rewrite (count_char_one_line c f1 H1 Hc), (count_char_one_line c f2 H2 Hc),
    (count_char_one_line c f3 H3 Hc), (count_char_one_line c f4 H4 Hc).
  destruct Hc as [-> | ->]; reflexivity.
Qed.

Lemma count_char_csv_dumps (c : ascii) (rs : list referral) :
  c = LF \/ c = CR ->
  (forall r, In r rs -> one_line (sender r) /\ one_line (business_name r)
                        /\ one_line (contact r) /\ one_line (message r)) ->
  count_char c (csv_dumps rs) = S (length rs).
Proof.
  intros Hc H. unfold csv_dumps. rewrite count_char_app.
  assert (Hh : count_char c (csv_row fieldnames) = 1).
  { destruct Hc as [-> | ->]; reflexivity. }
  rewrite Hh. cbn [Nat.add]. f_equal.
  induction rs as [|r rs IH]; [reflexivity|].
  cbn [flat_map length]. rewrite count_char_app.
  destruct (H r (or_introl eq_refl)) as [A [B [C D]]].
  rewrite (count_char_csv_row c _ _ _ _ Hc A B C D).
  rewrite IH; [reflexivity|]. intros r' I. apply H. right. exact I.
Qed.

(** X3: the CSV text written for the records of a file has one physical
    line for the header and one for each record: it holds as many line
    feeds, and as many carriage returns, as there are records plus one, so
    no field runs over a line. *)
Theorem csv_has_one_line_per_record (t : text) :
  count_char LF (csv_dumps (records_of t)) = S (length (records_of t))
  /\ count_char CR (csv_dumps (records_of t)) = S (length (records_of t))
  /\ starts_with (txt "sender,business_name,contact,message" ++ [CR; LF])
                 (csv_dumps (records_of t)) = true.
Proof.
  assert (H : forall r, In r (records_of t) ->
                one_line (sender r) /\ one_line (business_name r)
                /\ one_line (contact r) /\ one_line (message r)).
  { intros r I. apply (file_record_fields t r I). }
  split; [|split].
  - apply count_char_csv_dumps; [left; reflexivity | exact H].
  - apply count_char_csv_dumps; [right; reflexivity | exact H].
  - apply starts_with_app.
Qed.

(** * The JSON file *)

Section Dumped.

(** A class of characters that holds what the encoder writes. *)
Variable p : ascii -> bool.
Hypothesis p_escape : forall c, all_in p (escape_char c).
Hypothesis p_layout : all_in p (txt "[]{},: " ++ [QUOTE; LF]).

Lemma dumped_app (a b : text) : all_in p a -> all_in p b -> all_in p (a ++ b).
Proof. intros A B. apply all_in_app. auto. Qed.

Lemma dumped_layout (s : text) :
  (forall c, In c s -> In c (txt "[]{},: " ++ [QUOTE; LF])) -> all_in p s.
Proof.
  intros H. unfold all_in. apply forallb_forall. intros c I.
  apply (all_in_In _ _ _ p_layout). apply H. exact I.
Qed.

Lemma dumped_string (s : text) : all_in p (encode_string s).
Proof.
  unfold encode_string.
  change (QUOTE :: ?x ++ [QUOTE]) with ([QUOTE] ++ x ++ [QUOTE]).
  repeat apply dumped_app.
  - apply dumped_layout. simpl. tauto.
  - induction s as [|c s IH]; [reflexivity|].
    cbn [flat_map]. apply dumped_app; [apply p_escape | exact IH].
  - apply dumped_layout. simpl. tauto.
Qed.

Lemma dumped_indent (n : nat) : all_in p (newline_indent n).
Proof.
  apply dumped_layout. unfold newline_indent. intros c [<- | I].
  - simpl. tauto.
  - induction n as [|n IH]; [destruct I|]. simpl in I.
    repeat (destruct I as [<- | I]; [simpl; tauto|]). apply IH. exact I.
Qed.

Lemma dumped_member (k v : text) : all_in p (member k v).
Proof.
  unfold member. repeat apply dumped_app; try apply dumped_string.
  apply dumped_layout. simpl. tauto.
Qed.

Lemma dumped_referral (level : nat) (r : referral) :
  all_in p (encode level (to_json r)).
Proof.
  rewrite encode_referral.
  repeat first [ apply dumped_member | apply dumped_indent | apply dumped_app ];
    apply dumped_layout; simpl; tauto.
Qed.

Lemma dumped_items (rs : list referral) : all_in p (items_text rs).
Proof.
  induction rs as [|r rs IH]; [reflexivity|]. destruct rs as [|r2 rs].
  - unfold items_text. cbn [map join]. apply dumped_referral.
  - rewrite items_text_cons. apply dumped_app; [apply dumped_referral|].
    apply dumped_app; [|exact IH]. unfold item_sep.
    apply dumped_app; [apply dumped_layout; simpl; tauto | apply dumped_indent].
Qed.

Lemma dumped_referrals (rs : list referral) :
  all_in p (json_dumps (JArr (map to_json rs))).
Proof.
  destruct rs as [|r rs]; [apply dumped_layout; simpl; tauto|].
  rewrite json_dumps_referrals.
  change ("["%char :: ?x) with (txt "[" ++ x).
  repeat first [ apply dumped_items | apply dumped_indent | apply dumped_app ];
    try reflexivity; apply dumped_layout; simpl; tauto.
Qed.

End Dumped.

Lemma escape_char_ascii (c : ascii) : all_in plain_ascii (escape_char c).
Proof. each_char c; reflexivity. Qed.

(** X4: the JSON text written for a list of referrals is plain ASCII,
    whatever characters the fields hold: printable characters and line
    feeds only, hence no carriage return, no tab and no character from code
    point 127 on. *)
Theorem json_text_is_plain_ascii (referrals : list referral) :
  all_in plain_ascii (json_dumps (JArr (map to_json referrals))).
Proof.
  apply dumped_referrals; [exact escape_char_ascii | reflexivity].
Qed.

(** * Writing twice *)

Lemma dir_lookup_store_other (n m : text) (c : file_data) (d : directory) :
  n <> m -> dir_lookup n (dir_store m c d) = dir_lookup n d.
Proof.
  intros N. induction d as [|[k c'] d IH]; simpl.
  - destruct (text_eqb m n) eqn:E; [|reflexivity].
    apply text_eqb_eq in E. congruence.
  - destruct (text_eqb k m) eqn:Ekm; simpl.
    + destruct (text_eqb k n) eqn:Ekn; [|reflexivity].
      apply text_eqb_eq in Ekm, Ekn. congruence.
    + rewrite IH. reflexivity.
Qed.

Lemma dir_store_names_present (n : text) (c c' : file_data) (d : directory) :
  dir_lookup n d = Some c' ->
  map fst (dir_store n c d) = map fst d.
Proof.
  induction d as [|[k x] d IH]; simpl; [discriminate|].
  destruct (text_eqb k n) eqn:E; simpl; [reflexivity|].
  intros L. rewrite IH by exact L. reflexivity.
Qed.


(** X5: writing the JSON file of a name again replaces what it held: after
    two writes the file reads back as the second list only, the folder has
    one entry for the name, and the other files are as they were. *)
Theorem second_write_replaces_the_first (first second : list referral)
        (output_file : path) (w : world) :
  exists w1 w2,
    save_to_json first output_file w = (w1, Ok tt)
    /\ save_to_json second output_file w1 = (w2, Ok tt)
    /\ json_load output_file w2 = (w2, Ok (JArr (map to_json second)))
    /\ map fst (dir_of (fst output_file) w2)
       = map fst (dir_of (fst output_file) w1)
    /\ (forall n, n <> snd output_file ->
          dir_lookup n (dir_of (fst output_file) w2)
          = dir_lookup n (dir_of (fst output_file) w)).
Proof.
  destruct output_file as [f n]. unfold save_to_json, write_text. cbn [fst snd].
  eexists. eexists. split; [reflexivity|]. split; [reflexivity|].
  rewrite !dir_of_with_dir. split; [|split].
  - apply json_load_stored. cbn [fst snd]. rewrite dir_of_with_dir.
    apply dir_lookup_store.
  - eapply dir_store_names_present. apply dir_lookup_store.
  - intros k N. rewrite !dir_lookup_store_other by exact N. reflexivity.
Qed.

(** * File names *)

Lemma endswith_spec (s suffix : text) :
  endswith s suffix = true <-> exists a, s = a ++ suffix.
Proof.
  unfold endswith. rewrite andb_true_iff, Nat.leb_le, text_eqb_eq. split.
  - intros [L E]. exists (firstn (length s - length suffix) s).
    pose proof (firstn_skipn (length s - length suffix) s) as F.
    rewrite E in F. symmetry. exact F.
  - intros [a ->]. rewrite length_app. split; [lia|].
    replace (length a + length suffix - length suffix) with (length a) by lia.
    apply skipn_app_length.
Qed.

Lemma replace_skip (old new x r : text) :
  replace_from old new (length x) (x ++ r) = replace_from old new 0 r.
Proof.
  induction x as [|c x IH]; [reflexivity|]. cbn [length app replace_from]. exact IH.
Qed.

Lemma replace_found (o : ascii) (old new r : text) :
  replace (o :: old) new ((o :: old) ++ r) = new ++ replace (o :: old) new r.
Proof.
  unfold replace. cbn [app]. cbn [replace_from].
  change (o :: old ++ r) with ((o :: old) ++ r). rewrite starts_with_app.
  cbn [length Nat.sub]. rewrite Nat.sub_0_r, replace_skip. reflexivity.
Qed.

Lemma replace_step (old new s : text) (c : ascii) :
  starts_with old (c :: s) = false ->
  replace old new (c :: s) = c :: replace old new s.
Proof. intros H. unfold replace. cbn [replace_from]. rewrite H. reflexivity. Qed.


Lemma output_names_differ (s : text) :
  contains (txt ".txt") s = true -> json_name s <> csv_name s.
Proof.
  unfold json_name, csv_name. induction s as [|c s IH]; [discriminate|].
  change (contains (txt ".txt") (c :: s))
    with (starts_with (txt ".txt") (c :: s) || contains (txt ".txt") s).
  destruct (starts_with (txt ".txt") (c :: s)) eqn:E.
  - intros _. apply starts_with_spec in E. destruct E as [r ->].
    change (txt ".txt") with ("."%char :: txt "txt").
    rewrite !replace_found. discriminate.
  - cbn [orb]. intros H. rewrite !replace_step by exact E.
    intros Q. injection Q as Q. exact (IH H Q).
Qed.

Lemma suffix_no_overlap (a : text) :
  1 <= length a <= 3 -> starts_with (txt ".txt") (a ++ txt ".txt") = false.
Proof.
  intros L. destruct a as [|x [|y [|z [|u a]]]]; simpl in L; try lia; simpl;
    rewrite ?andb_false_r; reflexivity.
Qed.

Lemma replace_keeps_suffix (new : text) (n : nat) :
  forall s, length s <= n -> endswith s (txt ".txt") = true ->
            exists a, replace (txt ".txt") new s = a ++ new.
Proof.
  induction n as [|n IH]; intros s L E; apply endswith_spec in E;
    destruct E as [a0 ->]; rewrite length_app in L; simpl in L; [lia|].
  destruct (starts_with (txt ".txt") (a0 ++ txt ".txt")) eqn:S.
  - pose proof S as S'. apply starts_with_spec in S'. destruct S' as [r Er].
    rewrite Er. change (txt ".txt") with ("."%char :: txt "txt").
    rewrite replace_found. change ("."%char :: txt "txt") with (txt ".txt").
    symmetry in Er. apply app_eq_app in Er.
    destruct Er as [l [[E1 E2] | [E1 E2]]].
    + destruct a0 as [|x1 a0].
      * simpl in E1. subst l. destruct r as [|c r].
        -- exists []. cbn. apply app_nil_r.
        -- apply (f_equal (@length _)) in E2. rewrite length_app in E2.
           simpl in E2. lia.
      * destruct (Nat.le_gt_cases (length (x1 :: a0)) 3) as [Le|Gt].
        -- rewrite suffix_no_overlap in S; [discriminate | simpl in *; lia].
        -- apply (f_equal (@length _)) in E1 as E3. rewrite length_app in E3.
           simpl in E3, Gt. assert (l = []) by (destruct l; [reflexivity | simpl in E3; lia]).
           subst l. simpl in E2. subst r.
           exists new. cbn. rewrite app_nil_r. reflexivity.
    + subst a0 r. destruct (IH (l ++ txt ".txt")) as [a' Ea].
      * rewrite !length_app in *. simpl in *. lia.
      * apply endswith_spec. exists l. reflexivity.
      * exists (new ++ a'). rewrite Ea, app_assoc. reflexivity.
  - destruct a0 as [|c a0]; [discriminate|]. cbn [app] in *.
    rewrite replace_step by exact S.
    destruct (IH (a0 ++ txt ".txt")) as [a' Ea].
    + rewrite length_app. simpl in *. lia.
    + apply endswith_spec. exists a0. reflexivity.
    + exists (c :: a'). rewrite Ea. reflexivity.
Qed.

Lemma endswith_contains (s suffix : text) :
  endswith s suffix = true -> contains suffix s = true.
Proof.
  intros E. apply endswith_spec in E. destruct E as [a ->].
  apply contains_spec. exists a, []. rewrite app_nil_r. reflexivity.
Qed.

Lemma json_name_suffix (f : text) :
  endswith f (txt ".txt") = true -> endswith (json_name f) (txt ".json") = true.
Proof.
  intros E. apply endswith_spec.
  apply (replace_keeps_suffix (txt ".json") (length f) f (le_n _) E).
Qed.

Lemma csv_name_suffix (f : text) :
  endswith f (txt ".txt") = true -> endswith (csv_name f) (txt ".csv") = true.
Proof.
  intros E. apply endswith_spec.
  apply (replace_keeps_suffix (txt ".csv") (length f) f (le_n _) E).
Qed.

Lemma csv_is_not_json (s : text) :
  endswith s (txt ".csv") = true -> endswith s (txt ".json") = false.
Proof.
  intros E. destruct (endswith s (txt ".json")) eqn:J; [|reflexivity].
  apply endswith_spec in E, J. destruct E as [a ->], J as [b Eb].
  change (txt ".csv") with (txt ".cs" ++ [("v")%char]) in Eb.
  change (txt ".json") with (txt ".jso" ++ [("n")%char]) in Eb.
  rewrite !app_assoc in Eb. apply app_inj_tail in Eb. destruct Eb as [_ Eb].
  discriminate.
Qed.

(** X6: for a file name that ends in ".txt", the name of the JSON output
    ends in ".json" (so the search reads it), the name of the CSV output
    ends in ".csv" (so the search skips it), and the two names differ. *)
Theorem output_names_of_text_file (filename : text) :
  endswith filename (txt ".txt") = true ->
  endswith (json_name filename) (txt ".json") = true
  /\ endswith (csv_name filename) (txt ".csv") = true
  /\ endswith (csv_name filename) (txt ".json") = false
  /\ json_name filename <> csv_name filename.
Proof.
  intros E. split; [apply json_name_suffix; exact E|].
  split; [apply csv_name_suffix; exact E|].
  split; [apply csv_is_not_json, csv_name_suffix; exact E|].
  apply output_names_differ, endswith_contains. exact E.
Qed.

Lemma output_names_of_text_file_witness :
  endswith (txt "chat.txt.old.txt") (txt ".txt") = true
  /\ endswith (json_name (txt "chat.txt.old.txt")) (txt ".json") = true
  /\ json_name (txt "chat.txt.old.txt") <> csv_name (txt "chat.txt.old.txt").
Proof.
  split; [reflexivity|].
  split; [apply (output_names_of_text_file (txt "chat.txt.old.txt") eq_refl)|].
  apply (output_names_of_text_file (txt "chat.txt.old.txt") eq_refl).
Defined.

(** * One file of the batch *)

Lemma process_file_writes (w : world) (f t : text) :
  endswith f (txt ".txt") = true ->
  dir_lookup f (uploads w) = Some (Utf8 t) ->
  records_of t <> [] ->
  process_file f w
  = (World (dir_remove f (uploads w))
           (with_outputs f (records_of t) (outputs w))
           (stdout w ++ [txt "Processing " ++ f ++ txt "..."]
            ++ [txt "Extracted " ++ str_of_nat (length (records_of t))
                ++ txt " referrals from " ++ f ++ txt "."]),
     Ok tt).
Proof.
  intros E L N. unfold process_file. rewrite E.
  unfold bind at 1. cbn [print].
  unfold bind at 1. unfold extract_service_referrals, readlines, read_text.
  unfold bind at 1. unfold bind at 1. cbn [fst snd dir_of uploads]. rewrite L.
  cbn [ret]. fold (records_of t).
  destruct (records_of t) as [|r rs] eqn:X; [congruence|].
  unfold bind, print, os_remove, save_to_json, save_to_csv, write_text.
  cbn [fst snd dir_of uploads with_dir outputs stdout].
  rewrite L. unfold with_outputs, json_name, csv_name.
  rewrite <- app_assoc. reflexivity.
Qed.


Lemma with_outputs_lookup (f : text) (rs : list referral) (d : directory) :
  json_name f <> csv_name f ->
  dir_lookup (json_name f) (with_outputs f rs d)
  = Some (Utf8 (json_dumps (JArr (map to_json rs))))
  /\ dir_lookup (csv_name f) (with_outputs f rs d) = Some (Utf8 (csv_dumps rs))
  /\ forall n, n <> json_name f -> n <> csv_name f ->
               dir_lookup n (with_outputs f rs d) = dir_lookup n d.
Proof.
  intros N. unfold with_outputs. split; [|split].
  - rewrite dir_lookup_store_other by exact N. apply dir_lookup_store.
  - apply dir_lookup_store.
  - intros n N1 N2. rewrite !dir_lookup_store_other by assumption. reflexivity.
Qed.

(** X7: processing a text file that holds referrals writes two different
    files to the output folder, the JSON file and the CSV file of these
    referrals, changes no other output file, prints two lines, the second
    with the number of referrals, and the JSON file reads back as the
    referrals. *)
Theorem text_file_with_referrals_is_written (w : world) (f t : text) :
  endswith f (txt ".txt") = true ->
  dir_lookup f (uploads w) = Some (Utf8 t) ->
  records_of t <> [] ->
  exists w',
    process_file f w = (w', Ok tt)
    /\ dir_lookup (json_name f) (outputs w')
       = Some (Utf8 (json_dumps (JArr (map to_json (records_of t)))))
    /\ dir_lookup (csv_name f) (outputs w')
       = Some (Utf8 (csv_dumps (records_of t)))
    /\ (forall n, n <> json_name f -> n <> csv_name f ->
                  dir_lookup n (outputs w') = dir_lookup n (outputs w))
    /\ stdout w'
       = stdout w ++ [txt "Processing " ++ f ++ txt "..."]
         ++ [txt "Extracted " ++ str_of_nat (length (records_of t))
             ++ txt " referrals from " ++ f ++ txt "."]
    /\ json_load (OUTPUT_FOLDER, json_name f) w'
       = (w', Ok (JArr (map to_json (records_of t)))).
Proof.
  intros E L N. eexists. split; [apply process_file_writes; eassumption|].
  cbn [outputs stdout].
  assert (D : json_name f <> csv_name f)
    by (apply output_names_differ, endswith_contains; exact E).
  destruct (with_outputs_lookup f (records_of t) (outputs w) D) as [A [B C]].
  split; [exact A|]. split; [exact B|]. split; [exact C|].
  split; [reflexivity|].
  apply json_load_stored. exact A.
Qed.

Lemma text_file_with_referrals_is_written_witness :
  exists w',
    process_file (txt "a.txt")
      (World [(txt "a.txt", Utf8 (txt "[01/02/23, 3:45 PM] Bob: try Joe"))] [] [])
    = (w', Ok tt)
    /\ dir_lookup (txt "a.json") (outputs w')
       = Some (Utf8 (json_dumps (JArr (map to_json
            [Referral (txt "Bob") (txt "Joe") no_contact_found (txt "try Joe")]))))
    /\ stdout w' = [txt "Processing a.txt..."; txt "Extracted 1 referrals from a.txt."].
Proof.
  destruct (text_file_with_referrals_is_written
              (World [(txt "a.txt", Utf8 (txt "[01/02/23, 3:45 PM] Bob: try Joe"))]
                     [] [])
              (txt "a.txt") (txt "[01/02/23, 3:45 PM] Bob: try Joe")
              eq_refl eq_refl)
    as [w' [P [A [_ [_ [S _]]]]]].
  - vm_compute. discriminate.
  - exists w'. split; [exact P|]. split; [exact A | exact S].
Defined.

(** * The whole batch *)

Lemma process_file_uploads (f : text) (w : world) :
  uploads (fst (process_file f w)) = uploads w
  \/ (endswith f (txt ".txt") = true
      /\ uploads (fst (process_file f w)) = dir_remove f (uploads w)).
Proof.
  destruct (endswith f (txt ".txt")) eqn:E.
  - destruct (dir_lookup f (uploads w)) as [[t|]|] eqn:L.
    + right. split; [reflexivity|].
      destruct (process_file_decodes w f t E L) as [w' [P [U _]]].
      rewrite P. exact U.
    + left. rewrite (process_file_not_utf8 w f E L). reflexivity.
    + left. unfold process_file. rewrite E.
      unfold bind at 1. cbn [print].
      unfold bind at 1. unfold extract_service_referrals, readlines, read_text.
      unfold bind at 1. unfold bind at 1. cbn [fst snd dir_of uploads]. rewrite L.
      reflexivity.
  - left. rewrite (process_file_other w f E). reflexivity.
Qed.

Lemma for_each_keeps_other_files (names : list text) :
  forall w n,
    endswith n (txt ".txt") = false ->
    dir_lookup n (uploads (fst (for_each names process_file w)))
    = dir_lookup n (uploads w).
Proof.
  induction names as [|f names IH]; intros w n E; [reflexivity|].
  cbn [for_each]. unfold bind.
  pose proof (process_file_uploads f w) as U.
  destruct (process_file f w) as [w1 [[]|e]] eqn:P; cbn [fst] in *.
  - rewrite IH by exact E. destruct U as [-> | [Ef ->]]; [reflexivity|].
    rewrite dir_lookup_remove. destruct (text_eqb n f) eqn:X; [|reflexivity].
    apply text_eqb_eq in X. congruence.
  - destruct U as [-> | [Ef ->]]; [reflexivity|].
    rewrite dir_lookup_remove. destruct (text_eqb n f) eqn:X; [|reflexivity].
    apply text_eqb_eq in X. congruence.
Qed.

Lemma for_each_other_files (names : list text) (w : world) :
  (forall n, In n names -> endswith n (txt ".txt") = false) ->
  for_each names process_file w = (w, Ok tt).
Proof.
  induction names as [|f names IH]; intros H; [reflexivity|].
  cbn [for_each]. unfold bind.
  rewrite (process_file_other w f (H f (or_introl eq_refl))).
  apply IH. intros n I. apply H. right. exact I.
Qed.

(** X8: a batch run never touches a file of the input folder whose name
    does not end in ".txt", whatever the run meets (also when it ends with
    an error); and over a folder without any ".txt" file (an empty folder,
    or files that would not even decode) it does nothing at all. *)
Theorem batch_reads_text_files_only (w : world) :
  (forall n, endswith n (txt ".txt") = false ->
             dir_lookup n (uploads (fst (process_uploaded_files w)))
             = dir_lookup n (uploads w))
  /\ ((forall n, In n (map fst (uploads w)) -> endswith n (txt ".txt") = false) ->
      process_uploaded_files w = (w, Ok tt)).
Proof.
  split.
  - intros n E. unfold process_uploaded_files, bind, listdir.
    apply for_each_keeps_other_files. exact E.
  - intros H. unfold process_uploaded_files, bind, listdir.
    apply for_each_other_files. exact H.
Qed.

Lemma batch_reads_text_files_only_witness :
  process_uploaded_files
    (World [(txt "photo.jpg", NotUtf8); (txt "notes.md", Utf8 (txt "try Joe"))] [] [])
  = (World [(txt "photo.jpg", NotUtf8); (txt "notes.md", Utf8 (txt "try Joe"))] [] [],
     Ok tt).
Proof.
  apply (proj2 (batch_reads_text_files_only
                  (World [(txt "photo.jpg", NotUtf8);
                          (txt "notes.md", Utf8 (txt "try Joe"))] [] []))).
  intros n [<- | [<- | []]]; reflexivity.
Defined.

(** X9: a batch run over a folder whose ".txt" files all decode ends
    without error, leaves no ".txt" file behind, keeps the other files, and
    a second run right after it does nothing: each file is processed
    once. *)
Theorem batch_processes_each_file_once (w : world) :
  NoDup (map fst (uploads w)) ->
  (forall n, In n (map fst (uploads w)) -> endswith n (txt ".txt") = true ->
             exists t, dir_lookup n (uploads w) = Some (Utf8 t)) ->
  exists w',
    process_uploaded_files w = (w', Ok tt)
    /\ (forall n, In n (map fst (uploads w')) -> endswith n (txt ".txt") = false)
    /\ (forall n, endswith n (txt ".txt") = false ->
                  dir_lookup n (uploads w') = dir_lookup n (uploads w))
    /\ process_uploaded_files w' = (w', Ok tt).
Proof.
  intros ND H. destruct (for_each_decodes _ w ND H) as [w' [F U]].
  assert (G : forall n, In n (map fst (uploads w')) ->
                        endswith n (txt ".txt") = false).
  { intros n I. destruct (endswith n (txt ".txt")) eqn:E; [|reflexivity]. exfalso.
    assert (X : dir_lookup n (uploads w') <> None).
    { intros X. apply dir_lookup_names in X. contradiction. }
    apply X. rewrite U, E. destruct (listed n (map fst (uploads w))) eqn:Li.
    - reflexivity.
    - simpl. apply dir_lookup_names. intros I'. apply listed_In in I'. congruence. }
  exists w'. split; [exact F|]. split; [exact G|]. split.
  - intros n E. rewrite U, E, andb_false_r. reflexivity.
  - unfold process_uploaded_files, bind, listdir.
    apply for_each_other_files. exact G.
Qed.

Lemma batch_processes_each_file_once_witness :
  exists w',
    process_uploaded_files
      (World [ (txt "a.txt", Utf8 (txt "[01/02/23, 3:45 PM] Bob: try Joe"));
               (txt "photo.jpg", NotUtf8);
               (txt "b.txt", Utf8 (txt "hello")) ] [] [])
    = (w', Ok tt)
    /\ (forall n, In n (map fst (uploads w')) -> endswith n (txt ".txt") = false)
    /\ process_uploaded_files w' = (w', Ok tt).
Proof.
  destruct (batch_processes_each_file_once
              (World [ (txt "a.txt", Utf8 (txt "[01/02/23, 3:45 PM] Bob: try Joe"));
                       (txt "photo.jpg", NotUtf8);
                       (txt "b.txt", Utf8 (txt "hello")) ] [] []))
    as [w' [P [G [_ Q]]]].
  - repeat constructor; simpl; intuition discriminate.
  - intros n [<- | [<- | [<- | []]]] E; try discriminate; eexists; reflexivity.
  - exists w'. auto.
Defined.

(** * From the batch to the search *)








(** * What the search leaves alone, and when it fails *)

Lemma json_load_world (p : path) (w : world) : fst (json_load p w) = w.
Proof.
  unfold json_load, bind, read_text.
  destruct (dir_lookup (snd p) (dir_of (fst p) w)) as [[t|]|]; try reflexivity.
  destruct (json_loads (universal_newlines t)); reflexivity.
Qed.

Lemma search_files_world (query : text) (names : list text) (w : world) :
  forall results, fst (search_files query names results w) = w.
Proof.
  induction names as [|n names IH]; intros results; [reflexivity|].
  cbn [search_files]. destruct (endswith n (txt ".json")); [|apply IH].
  unfold bind at 1. pose proof (json_load_world (OUTPUT_FOLDER, n) w) as J.
  destruct (json_load (OUTPUT_FOLDER, n) w) as [w1 [v|e]]; cbn [fst] in J; subst w1;
    [|reflexivity].
  unfold bind at 1. unfold lift at 1.
  destruct (iterate v) as [items|e]; [|reflexivity].
  unfold bind at 1. unfold lift at 1.
  destruct (select query items) as [found|e]; [|reflexivity].
  apply IH.
Qed.

(** X11: a search changes nothing, neither a file of the two folders nor
    the output, whatever the folders hold and also when it ends with an
    error. *)
Theorem search_changes_nothing (query : text) (w : world) :
  fst (search_referrals query w) = w.
Proof.
  unfold search_referrals, bind, listdir.
  pose proof (search_files_world query (map fst (dir_of OUTPUT_FOLDER w)) w []) as S.
  destruct (search_files query (map fst (dir_of OUTPUT_FOLDER w)) [] w)
    as [w1 [l|e]]; exact S.
Qed.





(** * Narrower queries *)








(** * Line ends *)

Lemma universal_newlines_crlf (t : text) :
  no_cr t -> universal_newlines (crlf t) = t.
Proof.
  induction 1 as [|c t H F IH]; [reflexivity|].
  unfold crlf. cbn [flat_map]. fold (crlf t).
  destruct (is_code 10 c) eqn:E.
  - apply (is_code_eq 10 c) in E; [|lia]. subst c.
    cbn [app universal_newlines].
    change (is_code 13 CR) with true. change (is_code 10 LF) with true.
    cbv iota. rewrite IH. reflexivity.
  - cbn [app universal_newlines]. rewrite H, IH. reflexivity.
Qed.

(** X14: a chat file with Windows line ends yields the records of the same
    file with plain line feeds: the carriage returns never reach a
    field. *)
Theorem windows_line_ends_change_nothing (t : text) (file_path : path) (w : world) :
  no_cr t ->
  dir_lookup (snd file_path) (dir_of (fst file_path) w) = Some (Utf8 (crlf t)) ->
  records_of (crlf t) = records_of t
  /\ extract_service_referrals file_path w = (w, Ok (extract_lines (lines_of t))).
Proof.
  intros N L.
  assert (R : records_of (crlf t) = extract_lines (lines_of t))
    by (unfold records_of; rewrite universal_newlines_crlf by exact N; reflexivity).
  split.
  - rewrite R. unfold records_of. rewrite universal_newlines_id by exact N.
    reflexivity.
  - unfold extract_service_referrals, readlines, read_text, bind. rewrite L.
    cbn [ret]. rewrite universal_newlines_crlf by exact N. reflexivity.
Qed.

Lemma windows_line_ends_change_nothing_witness :
  records_of (crlf (txt "[01/02/23, 3:45 PM] Bob: try Joe" ++ [LF] ++ txt "bye"))
  = records_of (txt "[01/02/23, 3:45 PM] Bob: try Joe" ++ [LF] ++ txt "bye")
  /\ extract_service_referrals (UPLOAD_FOLDER, txt "a.txt")
       (World [(txt "a.txt",
                Utf8 (crlf (txt "[01/02/23, 3:45 PM] Bob: try Joe" ++ [LF]
                            ++ txt "bye")))] [] [])
     = (World [(txt "a.txt",
                Utf8 (crlf (txt "[01/02/23, 3:45 PM] Bob: try Joe" ++ [LF]
                            ++ txt "bye")))] [] [],
        Ok (extract_lines
              (lines_of (txt "[01/02/23, 3:45 PM] Bob: try Joe" ++ [LF]
                         ++ txt "bye")))).
Proof.
  apply (windows_line_ends_change_nothing
           (txt "[01/02/23, 3:45 PM] Bob: try Joe" ++ [LF] ++ txt "bye")
           (UPLOAD_FOLDER, txt "a.txt")
           (World [(txt "a.txt",
                    Utf8 (crlf (txt "[01/02/23, 3:45 PM] Bob: try Joe" ++ [LF]
                                ++ txt "bye")))] [] [])).
  - repeat constructor.
  - reflexivity.
Defined.

(** * upload_chat *)













